(** * frigate/video.py: frame capture, recent-frame window, object
    aggregation and the render cache

    A shallow embedding of [src/frigate/video.py].  Python [int] is [Z],
    Python [float] is an IEEE-754 binary64 value ([spec_float] with
    precision 53 and maximal exponent 1024, as specified in the standard
    library's [SpecFloat]), a raised exception is the [Raise] branch of
    [result].  Dictionaries read from the YAML configuration are [gmap]s,
    the [recent_frames] dictionary is an insertion-ordered association
    list, and the threads that share the frame buffer are a thread pool
    stepped one thread at a time by a schedule. *)

From Stdlib Require Import ZArith List Bool Lia.
From Stdlib Require Import Strings.Byte.
From Stdlib Require Import Floats.SpecFloat.
From stdpp Require Import gmap strings list.

Local Open Scope Z_scope.

(* ===================================================================== *)
(** * Python values *)
(* ===================================================================== *)

Module Py.

(** Exceptions raised by the operations the module uses. *)
Inductive exn : Set :=
| IndexError
| KeyError
| ValueError
| OverflowError
| ZeroDivisionError.

Inductive result (A : Type) : Type :=
| Ok (a : A)
| Raise (e : exn).
Arguments Ok {A} a.
Arguments Raise {A} e.

#[global] Instance result_ret : MRet result := fun A a => Ok a.
#[global] Instance result_bind : MBind result := fun A B k r =>
  match r with
  | Ok a => k a
  | Raise e => Raise e
  end.

Definition is_ok {A} (r : result A) : bool :=
  match r with Ok _ => true | Raise _ => false end.

(** ** Floats: binary64 *)

Definition prec : Z := 53.
Definition emax : Z := 1024.

Definition fadd : spec_float -> spec_float -> spec_float := SFadd prec emax.
Definition fsub : spec_float -> spec_float -> spec_float := SFsub prec emax.
Definition fmul : spec_float -> spec_float -> spec_float := SFmul prec emax.
Definition fdiv : spec_float -> spec_float -> spec_float := SFdiv prec emax.

(** The nearest binary64 of an integer, ties to even. *)
Definition round_int (z : Z) : spec_float := binary_normalize prec emax z 0 false.

(** [float(z)], as the arithmetic operators convert an [int] operand: the
    nearest double, [OverflowError] when that is out of range. *)
Definition float_of_int (z : Z) : result spec_float :=
  match round_int z with
  | S754_infinity _ => Raise OverflowError
  | f => Ok f
  end.

(** [int(f)]: truncation toward zero; [ValueError] on NaN, [OverflowError]
    on an infinity. *)
Definition int_of_float (f : spec_float) : result Z :=
  match f with
  | S754_zero _ => Ok 0
  | S754_finite s m e => Ok (cond_Zopp s (Z.shiftl (Z.pos m) e))
  | S754_infinity _ => Raise OverflowError
  | S754_nan => Raise ValueError
  end.

(** A decimal literal [n/d] of the source text or of the configuration:
    the correctly rounded quotient. *)
Definition literal (n d : Z) : spec_float := fdiv (round_int n) (round_int d).

(** ** Numbers: [int] or [float], with Python's mixed comparisons *)

Inductive num : Set :=
| Int (z : Z)
| Float (f : spec_float).

(** An [int] against a [float]: compared exactly, never through a rounded
    conversion; [None] when unordered (NaN). *)
Definition int_float_compare (z : Z) (f : spec_float) : option comparison :=
  match f with
  | S754_nan => None
  | S754_infinity s => Some (if s then Gt else Lt)
  | S754_zero _ => Some (z ?= 0)
  | S754_finite s m e =>
      let v := cond_Zopp s (Z.pos m) in
      Some (if 0 <=? e then z ?= v * 2 ^ e else z * 2 ^ (- e) ?= v)
  end.

Definition num_compare (a b : num) : option comparison :=
  match a, b with
  | Int x, Int y => Some (x ?= y)
  | Float x, Float y => SFcompare x y
  | Int x, Float y => int_float_compare x y
  | Float x, Int y => option_map CompOpp (int_float_compare y x)
  end.

(** [a > b], [a < b] and [a == b]. *)
Definition num_gt (a b : num) : bool :=
  match num_compare a b with Some Gt => true | _ => false end.
Definition num_lt (a b : num) : bool :=
  match num_compare a b with Some Lt => true | _ => false end.
Definition num_eq (a b : num) : bool :=
  match num_compare a b with Some Eq => true | _ => false end.

Definition is_nan (f : spec_float) : bool :=
  match f with S754_nan => true | _ => false end.

(** ** Sequences: [l[i]] with negative indices counted from the end *)

Definition index {A} (l : list A) (i : Z) : result A :=
  let n := Z.of_nat (length l) in
  let j := if i <? 0 then i + n else i in
  if (j <? 0) || (n <=? j) then Raise IndexError
  else match l !! Z.to_nat j with
       | Some a => Ok a
       | None => Raise IndexError
       end.

Definition len {A} (l : list A) : Z := Z.of_nat (length l).

End Py.

Import Py.

(* ===================================================================== *)
(** * Camera.add_objects *)
(* ===================================================================== *)

(** The per-label settings of a region, [region['objects'][name]]: each of
    the three keys may be missing. *)
Record obj_settings : Set := {
  min_area : option num;
  max_area : option num;
  threshold : option num
}.

(** An entry of [camera.regions] after [Camera.__init__] has merged the
    global, camera and region object settings into [region['objects']]. *)
Record region : Type := {
  size : Z;
  x_offset : Z;
  y_offset : Z;
  objects : gmap string obj_settings
}.

(** A raw detection handed to [add_objects]:
    [{'region_id', 'box', 'name', 'score'}]. *)
Record raw_object : Set := {
  region_id : Z;
  box : spec_float * spec_float * spec_float * spec_float;
  name : string;
  score : spec_float
}.

(** The detection after [obj.update(...)] and [obj['area'] = ...]. *)
Record detected_object : Set := {
  raw : raw_object;
  xmin : Z;
  ymin : Z;
  xmax : Z;
  ymax : Z;
  area : Z
}.

(** The mask: rows of pixel values. *)
Definition mask_t : Set := list (list Z).

(** [int((b * region['size']) + offset)] *)
Definition scale (b : spec_float) (sz off : Z) : result Z :=
  s ← float_of_int sz;
  o ← float_of_int off;
  int_of_float (fadd (fmul b s) o).

(** Lines 271-279: the absolute box and its area. *)
Definition locate (r : region) (obj : raw_object) : result detected_object :=
  let '(b0, b1, b2, b3) := box obj in
  x0 ← scale b0 (size r) (x_offset r);
  y0 ← scale b1 (size r) (y_offset r);
  x1 ← scale b2 (size r) (x_offset r);
  y1 ← scale b3 (size r) (y_offset r);
  Ok {| raw := obj; xmin := x0; ymin := y0; xmax := x1; ymax := y1;
        area := (x1 - x0) * (y1 - y0) |}.

Definition two_float : spec_float := Eval vm_compute in round_int 2.

(** Lines 302-303: the point whose mask value decides. *)
Definition y_location (mask : mask_t) (d : detected_object) : Z :=
  Z.min (ymax d) (len mask - 1).

Definition x_location (mask : mask_t) (d : detected_object) : result Z :=
  w ← float_of_int (xmax d - xmin d);
  half ← int_of_float (fdiv w two_float);
  row0 ← index mask 0;
  Ok (Z.min (half + xmin d) (len row0 - 1)).

(** [self.mask[y_location][x_location]] *)
Definition mask_value (mask : mask_t) (d : detected_object) : result Z :=
  let y := y_location mask d in
  x ← x_location mask d;
  row ← index mask y;
  index row x.

(** The three tests of lines 288-298, in the order of the source. *)
Definition min_area_rejects (st : obj_settings) (d : detected_object) : bool :=
  num_gt (default (Int (-1)) (min_area st)) (Int (area d)).

Definition max_area_rejects (r : region) (st : obj_settings) (d : detected_object) : bool :=
  num_lt (default (Int (size r ^ 2)) (max_area st)) (Int (area d)).

Definition threshold_rejects (st : obj_settings) (d : detected_object) : bool :=
  num_gt (default (Int 0) (threshold st)) (Float (score (raw d))).

Definition rules_reject (r : region) (st : obj_settings) (d : detected_object) : bool :=
  min_area_rejects st d || max_area_rejects r st d || threshold_rejects st d.

(** What the body of the [for] loop does with one detection: it reaches
    [detected_objects.append(obj)] or a [continue]. *)
Inductive verdict : Set :=
| Append (d : detected_object)
| Skip.

(** Lines 283-309.  The mask test is inside the [if object_name in
    region['objects']] block. *)
Definition filter_object (mask : mask_t) (r : region) (d : detected_object)
  : result verdict :=
  match objects r !! name (raw d) with
  | Some st =>
      if min_area_rejects st d then Ok Skip
      else if max_area_rejects r st d then Ok Skip
      else if threshold_rejects st d then Ok Skip
      else
        v ← mask_value mask d;
        if v =? 0 then Ok Skip else Ok (Append d)
  | None => Ok (Append d)
  end.

(** One iteration of the loop of [add_objects]. *)
Definition process_object (regions : list region) (mask : mask_t) (obj : raw_object)
  : result verdict :=
  r ← index regions (region_id obj);
  d ← locate r obj;
  filter_object mask r d.

(** What [add_objects] does to the shared state, in order. *)
Inductive event : Set :=
| Appended (d : detected_object)
| NotifyAll.

(** The outcome of a call: the [detected_objects] list it leaves, the
    events in order, and the exception that ended it, if any.  An
    exception in the middle of a batch leaves the appends made so far. *)
Record outcome : Set := {
  detected : list detected_object;
  events : list event;
  raised : option exn
}.

Fixpoint add_loop (regions : list region) (mask : mask_t) (objs : list raw_object)
  (acc : list detected_object) (evs : list event) : outcome :=
  match objs with
  | [] => {| detected := acc; events := evs ++ [NotifyAll]; raised := None |}
  | obj :: rest =>
      match process_object regions mask obj with
      | Raise e => {| detected := acc; events := evs; raised := Some e |}
      | Ok Skip => add_loop regions mask rest acc evs
      | Ok (Append d) => add_loop regions mask rest (acc ++ [d]) (evs ++ [Appended d])
      end
  end.

Definition add_objects (regions : list region) (mask : mask_t)
  (detected_objects : list detected_object) (objs : list raw_object) : outcome :=
  match objs with
  | [] => {| detected := detected_objects; events := []; raised := None |}
  | _ => add_loop regions mask objs detected_objects []
  end.

(** The calls of [objects_parsed.notify_all()] among the events. *)
Definition is_notify (e : event) : bool :=
  match e with NotifyAll => true | Appended _ => false end.

Definition signals (evs : list event) : nat := length (List.filter is_notify evs).

(** The batch is processed without an exception. *)
Definition processed (regions : list region) (mask : mask_t) (objs : list raw_object) : bool :=
  forallb (fun obj => is_ok (process_object regions mask obj)) objs.

(** The detections of a batch that reach [append], in order. *)
Definition survivors (regions : list region) (mask : mask_t) (objs : list raw_object)
  : list detected_object :=
  omap (fun obj => match process_object regions mask obj with
                   | Ok (Append d) => Some d
                   | _ => None
                   end) objs.

(** ** The example of the specification: region size 100 at (50, 20) *)

Definition example_region (rules : gmap string obj_settings) : region :=
  {| size := 100; x_offset := 50; y_offset := 20; objects := rules |}.

Definition example_object (s : spec_float) : raw_object :=
  {| region_id := 0;
     box := (literal 1 10, literal 2 10, literal 5 10, literal 6 10);
     name := "person";
     score := s |}.

(** The example detection with its absolute box. *)
Definition example_detected (s : spec_float) : detected_object :=
  {| raw := example_object s;
     xmin := 60; ymin := 40; xmax := 100; ymax := 80; area := 1600 |}.

(** A mask with the same value everywhere; [Camera.__init__] makes the
    all-255 one when no mask file is configured. *)
Definition uniform_mask (h w : nat) (v : Z) : mask_t := replicate h (replicate w v).

Definition only_threshold (n d : Z) : gmap string obj_settings :=
  {[ "person"%string :=
       {| min_area := None; max_area := None; threshold := Some (Float (literal n d)) |} ]}.

(* ===================================================================== *)
(** * The shared frame buffer *)
(* ===================================================================== *)

(** [camera.current_frame] (the raster, flattened, one byte per element of
    the [frame_shape] array) and [camera.frame_time]. *)
Record frame_buffer : Set := {
  current_frame : list byte;
  frame_time : spec_float
}.

(** [frame_shape[0] * frame_shape[1] * frame_shape[2]] *)
Definition frame_size_of (frame_shape : Z * Z * Z) : Z :=
  let '(h, w, c) := frame_shape in h * w * c.

(** [np.frombuffer(raw_image, np.uint8).reshape(frame_shape)]: the bytes
    themselves when there are as many as the shape has elements,
    [ValueError] otherwise. *)
Definition reshape (raw_image : list byte) (frame_shape : Z * Z * Z) : result (list byte) :=
  if len raw_image =? frame_size_of frame_shape then Ok raw_image
  else Raise ValueError.

(* ===================================================================== *)
(** * CameraCapture.run *)
(* ===================================================================== *)

Module CameraCapture.

Record config : Set := {
  take_frame : Z;
  frame_shape : Z * Z * Z
}.

Definition frame_size (cfg : config) : Z := frame_size_of (frame_shape cfg).

(** What one iteration obtains from outside: the result of
    [ffmpeg_process.poll()], of [stdout.read(frame_size)] (not consulted
    when the process has exited) and of [datetime.now().timestamp()]. *)
Record io : Set := {
  poll : option Z;
  raw_image : list byte;
  clock : spec_float
}.

Record state : Set := {
  frame_num : Z;
  buffer : frame_buffer
}.

Inductive effect : Set :=
| Printed (msg : string)
| FrameReady.

(** How an iteration ends: the loop goes on, the loop is left by [break],
    or an exception leaves [run]. *)
Inductive status : Set :=
| Continue
| Exited
| Died (e : exn).

Definition not_running : string :=
  "ffmpeg process is not running. exiting capture thread...".
Definition no_frame : string :=
  "ffmpeg didnt return a frame. something is wrong. exiting capture thread...".

(** One iteration of the [while True] loop, lines 88-112. *)
Definition step (cfg : config) (st : state) (i : io) : status * state * list effect :=
  match poll i with
  | Some _ => (Exited, st, [Printed not_running])
  | None =>
      if len (raw_image i) =? 0 then (Exited, st, [Printed no_frame])
      else
        let n := frame_num st + 1 in
        if take_frame cfg =? 0 then
          (Died ZeroDivisionError, {| frame_num := n; buffer := buffer st |}, [])
        else if negb (n mod take_frame cfg =? 0) then
          (Continue, {| frame_num := n; buffer := buffer st |}, [])
        else
          (* with frame_lock: the timestamp first, then the raster *)
          let timed := {| current_frame := current_frame (buffer st);
                          frame_time := clock i |} in
          match reshape (raw_image i) (frame_shape cfg) with
          | Raise e => (Died e, {| frame_num := n; buffer := timed |}, [])
          | Ok frame =>
              (Continue,
               {| frame_num := n;
                  buffer := {| current_frame := frame; frame_time := clock i |} |},
               [FrameReady])
          end
  end.

(** The loop over the successive iterations' inputs; [Continue] at the end
    means the inputs given were all consumed and the loop is still
    running. *)
Fixpoint run (cfg : config) (st : state) (ios : list io) : status * state * list effect :=
  match ios with
  | [] => (Continue, st, [])
  | i :: rest =>
      match step cfg st i with
      | (Continue, st', out) =>
          let '(s, st'', out') := run cfg st' rest in (s, st'', out ++ out')
      | stopped => stopped
      end
  end.

(** [run] starts with [frame_num = 0]. *)
Definition start (b : frame_buffer) : state := {| frame_num := 0; buffer := b |}.

End CameraCapture.

(* ===================================================================== *)
(** * FrameTracker.run *)
(* ===================================================================== *)

Module FrameTracker.

(** [recent_frames]: a dictionary keyed by the frame time, in insertion
    order. *)
Definition frames : Set := list (spec_float * list byte).

(** Equality of keys is [==] on floats. *)
Definition key_eq (a b : spec_float) : bool := SFeqb a b.

Definition keys (d : frames) : list spec_float := map fst d.

(** [d[k] = v] *)
Fixpoint setitem (d : frames) (k : spec_float) (v : list byte) : frames :=
  match d with
  | [] => [(k, v)]
  | (k', v') :: d' =>
      if key_eq k' k then (k', v) :: d' else (k', v') :: setitem d' k v
  end.

(** [del d[k]] *)
Fixpoint delitem (d : frames) (k : spec_float) : result frames :=
  match d with
  | [] => Raise KeyError
  | (k', v') :: d' =>
      if key_eq k' k then Ok d'
      else d'' ← delitem d' k; Ok ((k', v') :: d'')
  end.

(** [k in d], and the keys of a dictionary being pairwise different. *)
Definition has_key (d : frames) (k : spec_float) : bool :=
  existsb (fun k' => key_eq k' k) (keys d).

Fixpoint distinct (ks : list spec_float) : bool :=
  match ks with
  | [] => true
  | k :: rest => negb (existsb (fun k' => key_eq k' k) rest) && distinct rest
  end.

Definition distinct_keys (d : frames) : bool := distinct (keys d).

Definition half_second : spec_float := Eval vm_compute in literal 5 10.

(** [(now - k) > 2] *)
Definition too_old (now k : spec_float) : bool :=
  num_gt (Float (fsub now k)) (Int 2).

(** Lines 46-48, over [stored_frame_times]. *)
Fixpoint prune (now : spec_float) (stored_frame_times : list spec_float) (d : frames)
  : result frames :=
  match stored_frame_times with
  | [] => Ok d
  | k :: rest =>
      if too_old now k then d' ← delitem d k; prune now rest d'
      else prune now rest d
  end.

(** What one iteration reads from outside: the clock at line 29, the
    shared [frame_time.value] at its two reads of line 33, and the frame
    and time copied under [frame_lock] at lines 38-39. *)
Record io : Set := {
  now : spec_float;
  seen_first : spec_float;
  seen_second : spec_float;
  copied : frame_buffer
}.

Record state : Set := {
  last_frame_time : spec_float;
  recent_frames : frames
}.

(** Line 33: whether the iteration calls [frame_ready.wait()]. *)
Definition must_wait (st : state) (i : io) : bool :=
  SFeqb (seen_first i) (last_frame_time st)
  || num_gt (Float (fsub (now i) (seen_second i))) (Float half_second).

(** Lines 42-43: the dictionary with the copied frame recorded. *)
Definition recorded (st : state) (i : io) : frames :=
  setitem (recent_frames st) (frame_time (copied i)) (current_frame (copied i)).

(** One iteration of the loop, from line 29 to line 48. *)
Definition step (st : state) (i : io) : result state :=
  let d := recorded st i in
  d' ← prune (now i) (keys d) d;
  Ok {| last_frame_time := frame_time (copied i); recent_frames := d' |}.

(** The loop over the successive iterations' inputs. *)
Fixpoint run (st : state) (ios : list io) : result state :=
  match ios with
  | [] => Ok st
  | i :: rest => st' ← step st i; run st' rest
  end.

(** [run] starts with [frame_time = 0.0] and the camera's dictionary,
    empty when the camera is made. *)
Definition start (d : frames) : state :=
  {| last_frame_time := S754_zero false; recent_frames := d |}.

End FrameTracker.

(* ===================================================================== *)
(** * Camera.get_current_frame_with_objects *)
(* ===================================================================== *)

Module RenderCache.

(** [cached_frame_with_objects]: [frame_time] starts as the [int] 0 and is
    a [float] afterwards. *)
Record cache : Set := {
  frame_bytes : list byte;
  cached_frame_time : num
}.

(** The part of a [Camera] the method reads and writes. *)
Record camera : Type := {
  regions : list region;
  detected_objects : list detected_object;
  buffer : frame_buffer;
  cached_frame_with_objects : cache
}.

(** What a call returns or raises, the cache it leaves and whether it drew
    and encoded. *)
Record outcome : Set := {
  returned : result (list byte);
  cache_after : cache;
  rendered : bool
}.

Section Render.

(** Lines 328-348: the boxes, the region outlines and the time stamp drawn
    on the copied frame, converted to BGR and encoded as JPEG.  The
    drawing and encoding routines belong to [cv2] and [util]; they are a
    function of what the method passes them. *)
Variable render :
  list byte -> list detected_object -> list region -> spec_float -> result (list byte).

Definition get_current_frame_with_objects (cam : camera) : outcome :=
  let detected := detected_objects cam in
  let frame := current_frame (buffer cam) in
  let ft := frame_time (buffer cam) in
  if num_eq (Float ft) (cached_frame_time (cached_frame_with_objects cam)) then
    {| returned := Ok (frame_bytes (cached_frame_with_objects cam));
       cache_after := cached_frame_with_objects cam;
       rendered := false |}
  else
    match render frame detected (regions cam) ft with
    | Raise e =>
        {| returned := Raise e;
           cache_after := cached_frame_with_objects cam;
           rendered := true |}
    | Ok jpg =>
        {| returned := Ok jpg;
           cache_after := {| frame_bytes := jpg; cached_frame_time := Float ft |};
           rendered := true |}
    end.

(** The camera as the call leaves it. *)
Definition after (cam : camera) : camera :=
  {| regions := regions cam;
     detected_objects := detected_objects cam;
     buffer := buffer cam;
     cached_frame_with_objects := cache_after (get_current_frame_with_objects cam) |}.

End Render.

(** [Camera.__init__], lines 118, 138-152: the zeroed frame, time 0.0 and
    the empty cache. *)
Definition init (regions : list region) (frame_shape : Z * Z * Z) : camera :=
  {| regions := regions;
     detected_objects := [];
     buffer := {| current_frame := replicate (Z.to_nat (frame_size_of frame_shape)) Byte.x00;
                  frame_time := S754_zero false |};
     cached_frame_with_objects := {| frame_bytes := []; cached_frame_time := Int 0 |} |}.

End RenderCache.

(* ===================================================================== *)
(** * The threads around the frame buffer *)
(* ===================================================================== *)

(** The capture thread (lines 102-112) and the threads that copy the frame
    and its time under [frame_lock] (lines 321-323, and lines 37-39 of the
    frame tracker), interleaved one array element at a time. *)
Module SharedFrame.

(** Where a capture thread is.  [raw] is the [raw_image] it has read, [t]
    the time it has stored, [k] the number of elements of
    [current_frame[:] = ...] already assigned. *)
Inductive capture_pc : Set :=
| CapIdle
| CapLocked (raw : list byte)
| CapTimed (raw : list byte) (t : spec_float)
| CapCopying (frame : list byte) (t : spec_float) (k : nat)
| CapUnlocked
| CapDead (e : exn).

(** Where a reading thread is.  [acc] is the part of
    [current_frame.copy()] already made, [frame] and [t] the copies it
    holds.  [snap] is an auxiliary variable that no step reads: the pair
    last written when the thread took the lock. *)
Inductive reader_pc : Set :=
| RdIdle
| RdCopying (snap : frame_buffer) (acc : list byte)
| RdCopied (snap : frame_buffer) (frame : list byte)
| RdTimed (snap : frame_buffer) (frame : list byte) (t : spec_float)
| RdDone (snap : frame_buffer) (frame : list byte) (t : spec_float).

Inductive thread : Set :=
| Capture (pc : capture_pc)
| Reader (pc : reader_pc).

(** [lock] is the owner of [frame_lock], [shared] the buffer itself.
    [written] is an auxiliary variable: the raster and time of the last
    capture critical section that was left. *)
Record system : Set := {
  threads : list thread;
  lock : option nat;
  shared : frame_buffer;
  written : frame_buffer
}.

(** A scheduling decision: the thread that moves, and what it obtains from
    outside if its step asks (the bytes read from the decoder, the
    clock). *)
Record action : Set := {
  tid : nat;
  read : list byte;
  clock : spec_float
}.

Definition set_frame (b : frame_buffer) (f : list byte) : frame_buffer :=
  {| current_frame := f; frame_time := frame_time b |}.
Definition set_time (b : frame_buffer) (t : spec_float) : frame_buffer :=
  {| current_frame := current_frame b; frame_time := t |}.

Section Steps.

Variable frame_shape : Z * Z * Z.

Definition move (s : system) (i : nat) (th : thread) : system :=
  {| threads := <[i := th]> (threads s); lock := lock s;
     shared := shared s; written := written s |}.

Definition capture_step (s : system) (a : action) (pc : capture_pc) : option system :=
  let i := tid a in
  match pc with
  | CapIdle =>
      (* with self.camera.frame_lock: *)
      match lock s with
      | None =>
          Some {| threads := <[i := Capture (CapLocked (read a))]> (threads s);
                  lock := Some i; shared := shared s; written := written s |}
      | Some _ => None
      end
  | CapLocked raw =>
      (* frame_time.value = datetime.now().timestamp() *)
      Some {| threads := <[i := Capture (CapTimed raw (clock a))]> (threads s);
              lock := lock s; shared := set_time (shared s) (clock a);
              written := written s |}
  | CapTimed raw t =>
      match reshape raw frame_shape with
      | Ok frame => Some (move s i (Capture (CapCopying frame t 0)))
      | Raise e =>
          (* the exception leaves the with block, which releases the lock *)
          Some {| threads := <[i := Capture (CapDead e)]> (threads s);
                  lock := None; shared := shared s;
                  written := set_time (written s) t |}
      end
  | CapCopying frame t k =>
      match frame !! k with
      | Some b =>
          Some {| threads := <[i := Capture (CapCopying frame t (S k))]> (threads s);
                  lock := lock s;
                  shared := set_frame (shared s) (<[k := b]> (current_frame (shared s)));
                  written := written s |}
      | None =>
          Some {| threads := <[i := Capture CapUnlocked]> (threads s);
                  lock := None; shared := shared s;
                  written := {| current_frame := frame; frame_time := t |} |}
      end
  | CapUnlocked =>
      (* with frame_ready: frame_ready.notify_all() *)
      Some (move s i (Capture CapIdle))
  | CapDead _ => None
  end.

Definition reader_step (s : system) (a : action) (pc : reader_pc) : option system :=
  let i := tid a in
  match pc with
  | RdIdle =>
      (* with self.frame_lock: *)
      match lock s with
      | None =>
          Some {| threads := <[i := Reader (RdCopying (written s) [])]> (threads s);
                  lock := Some i; shared := shared s; written := written s |}
      | Some _ => None
      end
  | RdCopying snap acc =>
      (* frame = self.current_frame.copy() *)
      match current_frame (shared s) !! length acc with
      | Some b => Some (move s i (Reader (RdCopying snap (acc ++ [b]))))
      | None => Some (move s i (Reader (RdCopied snap acc)))
      end
  | RdCopied snap frame =>
      (* frame_time = self.frame_time.value *)
      Some (move s i (Reader (RdTimed snap frame (frame_time (shared s)))))
  | RdTimed snap frame t =>
      Some {| threads := <[i := Reader (RdDone snap frame t)]> (threads s);
              lock := None; shared := shared s; written := written s |}
  | RdDone _ _ _ => Some (move s i (Reader RdIdle))
  end.

(** One step of the thread chosen; [None] when that thread cannot move
    (it waits for the lock, it is dead, or there is no such thread). *)
Definition exec (s : system) (a : action) : option system :=
  match threads s !! tid a with
  | Some (Capture pc) => capture_step s a pc
  | Some (Reader pc) => reader_step s a pc
  | None => None
  end.

Fixpoint run (s : system) (schedule : list action) : option system :=
  match schedule with
  | [] => Some s
  | a :: rest =>
      match exec s a with
      | Some s' => run s' rest
      | None => None
      end
  end.

(** The camera as [__init__] leaves it, with a pool of threads none of
    which has started. *)
Inductive role : Set :=
| Capturing
| Reading.

Definition spawn (r : role) : thread :=
  match r with
  | Capturing => Capture CapIdle
  | Reading => Reader RdIdle
  end.

Definition zeros : frame_buffer :=
  {| current_frame := replicate (Z.to_nat (frame_size_of frame_shape)) Byte.x00;
     frame_time := S754_zero false |}.

Definition init (pool : list role) : system :=
  {| threads := spawn <$> pool; lock := None; shared := zeros; written := zeros |}.

(** ** What holds in every state *)

(** The thread is inside its [with frame_lock] block. *)
Definition critical (th : thread) : bool :=
  match th with
  | Capture (CapLocked _ | CapTimed _ _ | CapCopying _ _ _) => true
  | Reader (RdCopying _ _ | RdCopied _ _ | RdTimed _ _ _) => true
  | _ => false
  end.

(** What thread [i] at [th] knows of the shared state: inside the block
    it owns the lock; a capture thread has overwritten the time and the
    first [k] elements of the last written pair; a reader sees that pair
    in the buffer and has copied a part of it. *)
Definition thread_inv (s : system) (i : nat) (th : thread) : Prop :=
  match th with
  | Capture (CapLocked _) => lock s = Some i /\ shared s = written s
  | Capture (CapTimed _ t) => lock s = Some i /\ shared s = set_time (written s) t
  | Capture (CapCopying frame t k) =>
      lock s = Some i
      /\ length frame = Z.to_nat (frame_size_of frame_shape)
      /\ shared s = {| current_frame := take k frame ++ drop k (current_frame (written s));
                       frame_time := t |}
  | Reader (RdCopying snap acc) =>
      lock s = Some i /\ shared s = snap /\ written s = snap
      /\ acc = take (length acc) (current_frame snap)
  | Reader (RdCopied snap frame) =>
      lock s = Some i /\ shared s = snap /\ written s = snap
      /\ frame = current_frame snap
  | Reader (RdTimed snap frame t) =>
      lock s = Some i /\ shared s = snap /\ written s = snap
      /\ frame = current_frame snap /\ t = frame_time snap
  | Reader (RdDone snap frame t) => frame = current_frame snap /\ t = frame_time snap
  | _ => True
  end.

Definition invariant (s : system) : Prop :=
  length (current_frame (written s)) = Z.to_nat (frame_size_of frame_shape)
  /\ (lock s = None -> shared s = written s)
  /\ (forall i, lock s = Some i -> exists th, threads s !! i = Some th /\ critical th = true)
  /\ (forall i th, threads s !! i = Some th -> thread_inv s i th).

End Steps.

End SharedFrame.

(* ===================================================================== *)
(** * Floats that are numbers of the format *)
(* ===================================================================== *)

(** A double as the machine holds it: the mantissa and exponent are the
    canonical ones. *)
Definition valid_float (f : spec_float) : bool := valid_binary prec emax f.

(** Neither a NaN nor an infinity. *)
Definition is_finite_float (f : spec_float) : bool :=
  match f with
  | S754_zero _ | S754_finite _ _ _ => true
  | _ => false
  end.

(** Strictly above zero. *)
Definition is_positive (f : spec_float) : bool :=
  match f with
  | S754_finite false _ _ | S754_infinity false => true
  | _ => false
  end.

(* ===================================================================== *)
(** * Camera.__init__: the settings of a region, the mask *)
(* ===================================================================== *)

Module CameraInit.

(** [obj_settings.get(key)] for the three keys that [add_objects] reads
    of a settings dictionary such as [{'min_area': 5000}]. *)
Definition settings_of (d : gmap string num) : obj_settings :=
  {| min_area := d !! "min_area"%string;
     max_area := d !! "max_area"%string;
     threshold := d !! "threshold"%string |}.

(** [config.get(obj, {})] *)
Definition get_or_empty (config : gmap string (gmap string num)) (obj : string)
  : gmap string num :=
  default ∅ (config !! obj).

(** The value of a key after [{**global, **camera, **region}]: the most
    specific level that sets it. *)
Definition most_specific (region_value camera_value global_value : option num)
  : option num :=
  match region_value, camera_value with
  | Some v, _ => Some v
  | None, Some v => Some v
  | None, None => global_value
  end.

(** Line 162: the labels configured at any of the three levels. *)
Definition objects_with_config (global camera region_objects : gmap string (gmap string num))
  : gset string :=
  dom global ∪ dom camera ∪ dom region_objects.

(** Line 165: [{**global.get(obj, {}), **camera.get(obj, {}),
    **region_objects.get(obj, {})}], a later dictionary overriding an
    earlier one key by key. *)
Definition merged_settings (global camera region_objects : gmap string (gmap string num))
  (obj : string) : gmap string num :=
  get_or_empty region_objects obj ∪ get_or_empty camera obj ∪ get_or_empty global obj.

(** Lines 163-165: the loop over [objects_with_config]. *)
Definition merged_objects_config (global camera region_objects : gmap string (gmap string num))
  : gmap string (gmap string num) :=
  set_fold (fun obj merged => <[obj := merged_settings global camera region_objects obj]> merged)
    ∅ (objects_with_config global camera region_objects).

(** An entry of [config['regions']] as the configuration file gives it;
    [objects] may be missing. *)
Record region_config : Type := {
  config_size : Z;
  config_x_offset : Z;
  config_y_offset : Z;
  config_objects : option (gmap string (gmap string num))
}.

(** Lines 159-167: the region with [region['objects']] replaced by the
    merged settings. *)
Definition init_region (global camera : gmap string (gmap string num))
  (conf : region_config) : region :=
  {| size := config_size conf;
     x_offset := config_x_offset conf;
     y_offset := config_y_offset conf;
     objects := settings_of <$>
       merged_objects_config global camera (default ∅ (config_objects conf)) |}.

(** Lines 205-207: the mask made when none is configured or the file
    cannot be read, [frame_shape[0]] rows of [frame_shape[1]] times 255. *)
Definition default_mask (frame_shape : Z * Z * Z) : mask_t :=
  let '(h, w, _) := frame_shape in uniform_mask (Z.to_nat h) (Z.to_nat w) 255.

(** Lines 200-207: [loaded] is what [cv2.imread] gave, if a mask is
    configured and readable. *)
Definition camera_mask (loaded : option mask_t) (frame_shape : Z * Z * Z) : mask_t :=
  default (default_mask frame_shape) loaded.

End CameraInit.

(* ===================================================================== *)
(** * The decoder process and its capture thread *)
(* ===================================================================== *)

(** [Camera.start_or_restart_capture], [start_ffmpeg], [start], [join],
    [get_capture_pid] and [CameraWatchdog.run]. *)
Module Supervisor.

(** The exceptions of this part. *)
Inductive failure : Set :=
| AttributeError
| OSError.

(** What is done to the outside, in order.  [WaitTimeout] is a
    [wait(timeout=30)] that raised [TimeoutExpired], [Waited] a [wait]
    that returned. *)
Inductive effect : Set :=
| Printed (msg : string)
| Terminate (pid : Z)
| WaitTimeout (pid : Z)
| Waited (pid : Z)
| Kill (pid : Z)
| Join (thread : nat)
| Popen (cmd : list string) (pid : Z)
| StartThread (thread : nat)
| StartPrepThread (index : nat)
| StartWatchdog
| Sleep (seconds : Z).

(** The arguments as [__init__] resolved them, lines 121-126. *)
Record ffmpeg : Set := {
  ffmpeg_input : string;
  ffmpeg_global_args : list string;
  ffmpeg_hwaccel_args : list string;
  ffmpeg_input_args : list string;
  ffmpeg_output_args : list string
}.

(** [self.ffmpeg.get(key, ffmpeg_config[key])] *)
Definition resolve (camera_value : option (list string)) (global_value : list string)
  : list string :=
  default global_value camera_value.

(** Lines 237-243. *)
Definition ffmpeg_cmd (f : ffmpeg) : list string :=
  ["ffmpeg"%string] ++ ffmpeg_global_args f ++ ffmpeg_hwaccel_args f
  ++ ffmpeg_input_args f ++ ["-i"%string; ffmpeg_input f]
  ++ ffmpeg_output_args f ++ ["pipe:"%string].

(** [self.ffmpeg_process] and [self.capture_thread]. *)
Record handles : Set := {
  ffmpeg_process : option Z;
  capture_thread : option nat
}.

(** What a call obtains from outside: whether the graceful wait times
    out, the process [Popen] makes ([None]: it raises), the new thread. *)
Record env : Set := {
  timed_out : bool;
  spawned : option Z;
  thread : nat
}.

Record outcome : Set := {
  handles_after : handles;
  effects : list effect;
  raised : option failure
}.

(** Lines 211-225: the existing process is ended and its thread joined. *)
Definition stop_existing (h : handles) (e : env) : outcome :=
  match ffmpeg_process h with
  | None => {| handles_after := h; effects := []; raised := None |}
  | Some pid =>
      let ended :=
        [Printed "Terminating the existing ffmpeg process..."; Terminate pid;
         Printed "Waiting for ffmpeg to exit gracefully..."]
        ++ (if timed_out e
            then [WaitTimeout pid; Printed "FFmpeg didnt exit. Force killing...";
                  Kill pid; Waited pid]
            else [Waited pid])
        ++ [Printed "Waiting for the capture thread to exit..."] in
      match capture_thread h with
      | None => {| handles_after := h; effects := ended; raised := Some AttributeError |}
      | Some t =>
          {| handles_after := {| ffmpeg_process := None; capture_thread := None |};
             effects := ended ++ [Join t];
             raised := None |}
      end
  end.

(** Lines 227-234 with [start_ffmpeg], lines 236-247. *)
Definition start_new (f : ffmpeg) (h : handles) (e : env) : outcome :=
  let announced :=
    [Printed "Creating a new ffmpeg process...";
     Printed (String.concat " " (ffmpeg_cmd f))] in
  match spawned e with
  | None => {| handles_after := h; effects := announced; raised := Some OSError |}
  | Some pid =>
      {| handles_after := {| ffmpeg_process := Some pid; capture_thread := Some (thread e) |};
         effects := announced
                    ++ [Popen (ffmpeg_cmd f) pid;
                        Printed "Creating a new capture thread...";
                        Printed "Starting a new capture thread...";
                        StartThread (thread e)];
         raised := None |}
  end.

Definition start_or_restart_capture (f : ffmpeg) (h : handles) (e : env) : outcome :=
  let stopped := stop_existing h e in
  match raised stopped with
  | Some x => stopped
  | None =>
      let started := start_new f (handles_after stopped) e in
      {| handles_after := handles_after started;
         effects := effects stopped ++ effects started;
         raised := raised started |}
  end.

(** [__init__], lines 154-155. *)
Definition init : handles := {| ffmpeg_process := None; capture_thread := None |}.

(** [Camera.start], lines 249-254, for a camera of [regions] regions. *)
Definition start (f : ffmpeg) (regions : nat) (h : handles) (e : env) : outcome :=
  let o := start_or_restart_capture f h e in
  match raised o with
  | Some _ => o
  | None =>
      {| handles_after := handles_after o;
         effects := effects o ++ map StartPrepThread (seq 0 regions) ++ [StartWatchdog];
         raised := None |}
  end.

(** [Camera.get_capture_pid] and the thread [Camera.join] waits for;
    [None]: [AttributeError], the attribute is still [None]. *)
Definition get_capture_pid (h : handles) : option Z := ffmpeg_process h.
Definition join (h : handles) : option nat := capture_thread h.

(** A sequence of calls of [start_or_restart_capture]; it ends at the
    first that raises. *)
Fixpoint restarts (f : ffmpeg) (h : handles) (envs : list env) : outcome :=
  match envs with
  | [] => {| handles_after := h; effects := []; raised := None |}
  | e :: rest =>
      let o := start_or_restart_capture f h e in
      match raised o with
      | Some _ => o
      | None =>
          let o' := restarts f (handles_after o) rest in
          {| handles_after := handles_after o';
             effects := effects o ++ effects o';
             raised := raised o' |}
      end
  end.

(** ** CameraWatchdog.run *)

(** Line 74: [(now - frame_time.value) > 300] *)
Definition stale (now frame_time : spec_float) : bool :=
  num_gt (Float (fsub now frame_time)) (Int 300).

(** What one round of the watchdog reads: the clock and the shared frame
    time after the sleep, and what a restart would obtain. *)
Record tick : Set := {
  now : spec_float;
  seen : spec_float;
  restart_env : env
}.

Definition too_old_message : string :=
  "last frame is more than 5 minutes old, restarting camera capture...".

(** Lines 71-77: one round of the loop. *)
Definition watch (f : ffmpeg) (h : handles) (t : tick) : outcome :=
  if stale (now t) (seen t) then
    let o := start_or_restart_capture f h (restart_env t) in
    {| handles_after := handles_after o;
       effects := [Sleep 10; Printed too_old_message] ++ effects o
                  ++ (match raised o with None => [Sleep 5] | Some _ => [] end);
       raised := raised o |}
  else {| handles_after := h; effects := [Sleep 10]; raised := None |}.

(** The loop over the successive rounds; an exception ends the thread. *)
Fixpoint watchdog (f : ffmpeg) (h : handles) (ticks : list tick) : outcome :=
  match ticks with
  | [] => {| handles_after := h; effects := []; raised := None |}
  | t :: rest =>
      let o := watch f h t in
      match raised o with
      | Some _ => o
      | None =>
          let o' := watchdog f (handles_after o) rest in
          {| handles_after := handles_after o';
             effects := effects o ++ effects o';
             raised := raised o' |}
      end
  end.

(** ** Reading a trace *)

(** Whether the handles agree: a process and its thread, or neither. *)
Definition in_step (h : handles) : bool :=
  match ffmpeg_process h, capture_thread h with
  | Some _, Some _ | None, None => true
  | _, _ => false
  end.

(** What runs according to the handles. *)
Definition process_runs (h : handles) : bool :=
  match ffmpeg_process h with Some _ => true | None => false end.
Definition thread_runs (h : handles) : bool :=
  match capture_thread h with Some _ => true | None => false end.

(** A trace is orderly from a moment when a process is running
    ([process]) and a capture thread is unjoined ([thread]) when it spawns
    a decoder only while none runs, starts a capture thread only while
    none is unjoined, and ends or joins only what exists; the result is
    what runs at the end. *)
Fixpoint orderly (process thread : bool) (trace : list effect) : option (bool * bool) :=
  match trace with
  | [] => Some (process, thread)
  | Popen _ _ :: rest => if process then None else orderly true thread rest
  | StartThread _ :: rest => if thread then None else orderly process true rest
  | (Terminate _ | Kill _ | WaitTimeout _) :: rest =>
      if process then orderly process thread rest else None
  | Waited _ :: rest => if process then orderly false thread rest else None
  | Join _ :: rest =>
      (* the thread ends only once its process has: joined after the wait *)
      if thread && negb process then orderly process false rest else None
  | _ :: rest => orderly process thread rest
  end.

End Supervisor.

(* ===================================================================== *)
(** * Streams of whole frames *)
(* ===================================================================== *)


(** The mask is [w] pixels wide on every row. *)
Definition rows_of_width (w : Z) (mask : mask_t) : bool :=
  forallb (fun row => len row =? w) mask.

(* ===================================================================== *)
(** * How long the frame lock is held *)
(* ===================================================================== *)

(** The steps a thread has at most left inside its [with frame_lock]
    block, for a frame of [n] elements. *)
Definition steps_to_release (n : nat) (th : SharedFrame.thread) : nat :=
  match th with
  | SharedFrame.Capture (SharedFrame.CapLocked _) => n + 3
  | SharedFrame.Capture (SharedFrame.CapTimed _ _) => n + 2
  | SharedFrame.Capture (SharedFrame.CapCopying _ _ k) => n - k + 1
  | SharedFrame.Reader (SharedFrame.RdCopying _ acc) => n - length acc + 3
  | SharedFrame.Reader (SharedFrame.RdCopied _ _) => 2
  | SharedFrame.Reader (SharedFrame.RdTimed _ _ _) => 1
  | _ => 0
  end.

(* ===================================================================== *)
(** * What the capture blocks write *)
(* ===================================================================== *)

Section Written.

Import SharedFrame.

Variable frame_shape : Z * Z * Z.
Variable pool : list role.





End Written.

(* ===================================================================== *)
(** * Properties of [add_objects] *)
(* ===================================================================== *)

Section AddObjects.

Implicit Types (regions : list region) (mask : mask_t) (r : region).
Implicit Types (obj : raw_object) (d : detected_object) (st : obj_settings).


Lemma locate_raw r obj d : locate r obj = Ok d -> raw d = obj.
Proof.
  unfold locate. destruct (box obj) as [[[b0 b1] b2] b3].
  destruct (scale b0 _ _); [|discriminate].
  destruct (scale b1 _ _); [|discriminate].
  destruct (scale b2 _ _); [|discriminate].
  destruct (scale b3 _ _); [|discriminate].
  simpl. intros [= <-]. reflexivity.
Qed.

(** [filter_object] when the label has settings, as one case analysis. *)
Lemma filter_object_rules mask r d st :
  objects r !! name (raw d) = Some st ->
  filter_object mask r d =
    if rules_reject r st d then Ok Skip
    else v ← mask_value mask d; if v =? 0 then Ok Skip else Ok (Append d).
Proof.
  intros H. unfold filter_object, rules_reject. rewrite H.
  destruct (min_area_rejects st d); [reflexivity|].
  destruct (max_area_rejects r st d); [reflexivity|].
  destruct (threshold_rejects st d); reflexivity.
Qed.

Lemma rules_reject_true r st d :
  rules_reject r st d = true <->
  min_area_rejects st d = true \/ max_area_rejects r st d = true
  \/ threshold_rejects st d = true.
Proof.
  unfold rules_reject.
  destruct (min_area_rejects st d), (max_area_rejects r st d),
    (threshold_rejects st d); simpl; intuition discriminate.
Qed.

Lemma filter_object_no_rules mask r d :
  objects r !! name (raw d) = None -> filter_object mask r d = Ok (Append d).
Proof. intros H. unfold filter_object. rewrite H. reflexivity. Qed.

Lemma process_object_located regions mask obj r d :
  index regions (region_id obj) = Ok r -> locate r obj = Ok d ->
  process_object regions mask obj = filter_object mask r d.
Proof. intros Hr Hd. unfold process_object. rewrite Hr. simpl. rewrite Hd. reflexivity. Qed.

Lemma index_elem {A} (l : list A) (i : Z) (a : A) : index l i = Ok a -> a ∈ l.
Proof.
  unfold index. destruct (_ || _); [discriminate|].
  destruct (l !! _) as [x|] eqn:E; [|discriminate].
  intros [= <-]. eapply list_elem_of_lookup_2, E.
Qed.

(** The value read from the mask is one of its pixels. *)
Lemma mask_value_elem mask d v :
  mask_value mask d = Ok v -> exists row, row ∈ mask /\ v ∈ row.
Proof.
  unfold mask_value. destruct (x_location mask d) as [x|]; [simpl|discriminate].
  destruct (index mask (y_location mask d)) as [row|] eqn:Erow; [simpl|discriminate].
  intros Hv. exists row. split; eapply index_elem; eauto.
Qed.

Lemma add_loop_all_ok regions mask objs : forall acc evs,
  processed regions mask objs = true ->
  add_loop regions mask objs acc evs =
    {| detected := acc ++ survivors regions mask objs;
       events := evs ++ map Appended (survivors regions mask objs) ++ [NotifyAll];
       raised := None |}.
Proof.
  unfold processed, survivors.
  induction objs as [|obj objs IH]; intros acc evs Hall; simpl in *.
  - rewrite app_nil_r. reflexivity.
  - apply andb_true_iff in Hall as [Hobj Hall].
    destruct (process_object regions mask obj) as [[d|]|e]; [| |discriminate].
    + rewrite (IH _ _ Hall). simpl. rewrite <- !app_assoc. reflexivity.
    + apply IH, Hall.
Qed.

Lemma signals_appended (ds : list detected_object) (evs : list event) :
  signals (map Appended ds ++ evs) = signals evs.
Proof. unfold signals. induction ds as [|d ds IH]; simpl; [reflexivity|exact IH]. Qed.

End AddObjects.


(** C3, as stated, fails: the example detection (score 0.3) under the rule
    [threshold: 0.2] passes the three tests of the rules, yet over a
    masked point it is not appended. *)
Lemma rules_alone_counterexample :
  locate (example_region (only_threshold 2 10)) (example_object (literal 3 10))
    = Ok (example_detected (literal 3 10))
  /\ objects (example_region (only_threshold 2 10)) !! "person"%string
       = Some {| min_area := None; max_area := None;
                 threshold := Some (Float (literal 2 10)) |}
  /\ rules_reject (example_region (only_threshold 2 10))
       {| min_area := None; max_area := None; threshold := Some (Float (literal 2 10)) |}
       (example_detected (literal 3 10)) = false
  /\ process_object [example_region (only_threshold 2 10)] (uniform_mask 200 200 0)
       (example_object (literal 3 10)) = Ok Skip.
Proof. repeat split; vm_compute; reflexivity. Qed.

(** C3 (amended): a detection whose label has rules in its region is
    skipped exactly when [min_area] exceeds its area, or [max_area]
    (default: the region size squared) is less than its area, or
    [threshold] (default 0) exceeds its score, or the mask value at its
    representative point is 0; it is appended exactly when none of the
    three tests rejects and that mask value is not 0.  A detection whose
    label has no rules is not tested for area or score.  Over the all-255
    mask the example detection with score 0.3 is skipped under threshold
    0.5 and appended under threshold 0.2. *)
Theorem rejected_by_rules_or_mask
  (regions : list region) (mask : mask_t) (obj : raw_object) (r : region)
  (d : detected_object) :
  index regions (region_id obj) = Ok r ->
  locate r obj = Ok d ->
  (forall st, objects r !! name obj = Some st ->
     (process_object regions mask obj = Ok Skip <->
        min_area_rejects st d = true \/ max_area_rejects r st d = true
        \/ threshold_rejects st d = true \/ mask_value mask d = Ok 0)
     /\ (process_object regions mask obj = Ok (Append d) <->
          rules_reject r st d = false
          /\ exists v, mask_value mask d = Ok v /\ v <> 0))
  /\ (objects r !! name obj = None ->
       process_object regions mask obj = Ok (Append d))
  /\ process_object [example_region (only_threshold 5 10)] (uniform_mask 200 200 255)
       (example_object (literal 3 10)) = Ok Skip
  /\ process_object [example_region (only_threshold 2 10)] (uniform_mask 200 200 255)
       (example_object (literal 3 10)) = Ok (Append (example_detected (literal 3 10))).
Proof.
  intros Hr Hd.
  rewrite (process_object_located _ mask _ _ _ Hr Hd).
  pose proof (locate_raw _ _ _ Hd) as Hraw.
  split; [|split; [|split; vm_compute; reflexivity]].
  - intros st Hst. rewrite <- Hraw in Hst.
    rewrite (filter_object_rules mask _ _ _ Hst).
    pose proof (rules_reject_true r st d) as Hrej.
    destruct (rules_reject r st d).
    + split; split; try discriminate.
      * intros _. destruct (proj1 Hrej eq_refl) as [H|[H|H]]; auto.
      * reflexivity.
      * intros [[=] _].
    + assert (Hno : ~ (min_area_rejects st d = true \/ max_area_rejects r st d = true
                       \/ threshold_rejects st d = true))
        by (intros H; apply Hrej in H; discriminate).
      destruct (mask_value mask d) as [v|e]; simpl.
      * destruct (Z.eqb_spec v 0) as [->|Hv]; split; split; try discriminate.
        -- auto.
        -- reflexivity.
        -- intros (_ & v & [= <-] & Hv). congruence.
        -- intros [H|[H|[H|[= ->]]]]; [exfalso; apply Hno; auto ..|congruence].
        -- intros _. split; [reflexivity|eauto].
        -- reflexivity.
      * split; split; try discriminate.
        -- intros [H|[H|[H|[=]]]]; exfalso; apply Hno; auto.
        -- intros (_ & v & [=] & _).
  - intros Hnone. rewrite <- Hraw in Hnone. apply filter_object_no_rules, Hnone.
Qed.

Lemma rejected_by_rules_or_mask_witness :
  process_object [example_region (only_threshold 5 10)] (uniform_mask 200 200 255)
    (example_object (literal 3 10)) = Ok Skip <->
  min_area_rejects
    {| min_area := None; max_area := None; threshold := Some (Float (literal 5 10)) |}
    (example_detected (literal 3 10)) = true
  \/ max_area_rejects (example_region (only_threshold 5 10))
       {| min_area := None; max_area := None; threshold := Some (Float (literal 5 10)) |}
       (example_detected (literal 3 10)) = true
  \/ threshold_rejects
       {| min_area := None; max_area := None; threshold := Some (Float (literal 5 10)) |}
       (example_detected (literal 3 10)) = true
  \/ mask_value (uniform_mask 200 200 255) (example_detected (literal 3 10)) = Ok 0.
Proof.
  refine (proj1 (proj1 (rejected_by_rules_or_mask
    [example_region (only_threshold 5 10)] (uniform_mask 200 200 255)
    (example_object (literal 3 10)) (example_region (only_threshold 5 10))
    (example_detected (literal 3 10)) _ _) _ _)).
  - vm_compute; reflexivity.
  - vm_compute; reflexivity.
  - vm_compute; reflexivity.
Defined.

(** C5, as stated, fails.  A detection whose label has no rules is
    appended although the mask is 0 at its representative point (80, 80):
    the mask test of lines 300-307 sits inside the block of the rules.
    And a detection that a rule test rejects is not accepted over a mask
    value of 255 either. *)
Lemma mask_claim_counterexample :
  (objects (example_region ∅) !! name (example_object (literal 9 10)) = None
   /\ y_location (uniform_mask 200 200 0) (example_detected (literal 9 10)) = 80
   /\ x_location (uniform_mask 200 200 0) (example_detected (literal 9 10)) = Ok 80
   /\ mask_value (uniform_mask 200 200 0) (example_detected (literal 9 10)) = Ok 0
   /\ process_object [example_region ∅] (uniform_mask 200 200 0)
        (example_object (literal 9 10))
      = Ok (Append (example_detected (literal 9 10)))
   /\ add_objects [example_region ∅] (uniform_mask 200 200 0) []
        [example_object (literal 9 10)]
      = {| detected := [example_detected (literal 9 10)];
           events := [Appended (example_detected (literal 9 10)); NotifyAll];
           raised := None |})
  /\ (mask_value (uniform_mask 200 200 255) (example_detected (literal 3 10)) = Ok 255
      /\ process_object [example_region (only_threshold 5 10)] (uniform_mask 200 200 255)
           (example_object (literal 3 10)) = Ok Skip).
Proof. repeat split; vm_compute; reflexivity. Qed.

(** C5 (amended): for a detection whose label has rules in its region, a
    mask value of 0 at the representative point (the bottom edge [ymax]
    clamped to the mask height - 1, the midpoint of the box clamped to the
    mask width - 1) rejects it whatever its score and area; over a
    non-zero mask value there it is appended when no rule test rejects
    it; and it is skipped only by a rule test or by a 0 read at the
    clamped point, so that over a mask without a 0 the clamping never
    rejects. *)
Theorem masked_point_rejects
  (regions : list region) (mask : mask_t) (obj : raw_object) (r : region)
  (d : detected_object) (st : obj_settings) :
  index regions (region_id obj) = Ok r ->
  locate r obj = Ok d ->
  objects r !! name obj = Some st ->
  (mask_value mask d = Ok 0 -> process_object regions mask obj = Ok Skip)
  /\ (forall v, mask_value mask d = Ok v -> v <> 0 -> rules_reject r st d = false ->
        process_object regions mask obj = Ok (Append d))
  /\ (process_object regions mask obj = Ok Skip ->
        rules_reject r st d = true \/ mask_value mask d = Ok 0)
  /\ (Forall (Forall (fun v => v <> 0)) mask ->
        process_object regions mask obj = Ok Skip -> rules_reject r st d = true)
  /\ y_location mask d <= len mask - 1
  /\ (forall x, x_location mask d = Ok x ->
        exists row0, index mask 0 = Ok row0 /\ x <= len row0 - 1).
Proof.
  intros Hr Hd Hst.
  rewrite (process_object_located _ mask _ _ _ Hr Hd).
  rewrite <- (locate_raw _ _ _ Hd) in Hst.
  rewrite (filter_object_rules mask _ _ _ Hst).
  assert (Hskip : (if rules_reject r st d then Ok Skip
                   else v ← mask_value mask d; if v =? 0 then Ok Skip else Ok (Append d))
                  = Ok Skip -> rules_reject r st d = true \/ mask_value mask d = Ok 0).
  { destruct (rules_reject r st d); [auto|].
    destruct (mask_value mask d) as [v|e]; simpl; [|discriminate].
    destruct (Z.eqb_spec v 0) as [->|]; [auto|discriminate]. }
  split; [|split; [|split; [exact Hskip|split; [|split]]]].
  - intros Hm. destruct (rules_reject r st d); [reflexivity|]. rewrite Hm. reflexivity.
  - intros v Hm Hv Hrej. rewrite Hrej, Hm. simpl.
    destruct (Z.eqb_spec v 0); [contradiction|reflexivity].
  - intros Hmask Hs. destruct (Hskip Hs) as [H|H]; [exact H|].
    exfalso. apply mask_value_elem in H as (row & Hrow & Hin).
    rewrite Forall_forall in Hmask. specialize (Hmask _ Hrow).
    rewrite Forall_forall in Hmask. exact (Hmask _ Hin eq_refl).
  - unfold y_location. lia.
  - intros x Hx. unfold x_location in Hx.
    destruct (float_of_int _); [simpl in Hx|discriminate].
    destruct (int_of_float _); [simpl in Hx|discriminate].
    destruct (index mask 0) as [row0|]; [simpl in Hx|discriminate].
    injection Hx as <-. exists row0. split; [reflexivity|lia].
Qed.

Lemma masked_point_rejects_witness :
  process_object [example_region (only_threshold 2 10)] (uniform_mask 200 200 0)
    (example_object (literal 3 10)) = Ok Skip.
Proof.
  refine (proj1 (masked_point_rejects
    [example_region (only_threshold 2 10)] (uniform_mask 200 200 0)
    (example_object (literal 3 10)) (example_region (only_threshold 2 10))
    (example_detected (literal 3 10))
    {| min_area := None; max_area := None; threshold := Some (Float (literal 2 10)) |}
    _ _ _) _); vm_compute; reflexivity.
Defined.






(* ===================================================================== *)
(** * Properties of the capture loop *)
(* ===================================================================== *)

Section Capture.

Import CameraCapture.

Implicit Types (cfg : config) (st : state) (i : io).

(** An iteration changes the raster only by storing a read of exactly
    [frame_size] bytes. *)
Lemma step_raster cfg st i :
  current_frame (buffer (step cfg st i).1.2) = current_frame (buffer st)
  \/ (len (raw_image i) = frame_size cfg
      /\ current_frame (buffer (step cfg st i).1.2) = raw_image i).
Proof.
  unfold step, reshape, frame_size.
  destruct (poll i); [left; reflexivity|].
  destruct (len (raw_image i) =? 0); [left; reflexivity|].
  destruct (take_frame cfg =? 0); [left; reflexivity|].
  destruct (negb _); [left; reflexivity|].
  destruct (Z.eqb_spec (len (raw_image i)) (frame_size_of (frame_shape cfg)));
    [right; split; [assumption|reflexivity] | left; reflexivity].
Qed.

Lemma run_cons cfg st i rest :
  run cfg st (i :: rest) =
    match step cfg st i with
    | (Continue, st', out) =>
        let '(s, st'', out') := run cfg st' rest in (s, st'', out ++ out')
    | stopped => stopped
    end.
Proof. reflexivity. Qed.

Lemma run_raster cfg ios : forall st,
  current_frame (buffer (run cfg st ios).1.2) = current_frame (buffer st)
  \/ exists i, i ∈ ios /\ len (raw_image i) = frame_size cfg
               /\ current_frame (buffer (run cfg st ios).1.2) = raw_image i.
Proof.
  induction ios as [|i rest IH]; intros st; [left; reflexivity|].
  rewrite run_cons.
  pose proof (step_raster cfg st i) as Hstep.
  destruct (step cfg st i) as [[s st'] out] eqn:E. simpl in Hstep.
  assert (Hhere : current_frame (buffer st') = current_frame (buffer st)
                  \/ exists i', i' ∈ i :: rest /\ len (raw_image i') = frame_size cfg
                                /\ current_frame (buffer st') = raw_image i').
  { destruct Hstep as [H|[H1 H2]]; [left; exact H|right].
    exists i. split; [apply list_elem_of_here|]. split; assumption. }
  destruct s; simpl; try exact Hhere.
  specialize (IH st').
  destruct (run cfg st' rest) as [[s' st''] out'] eqn:E'. simpl in *.
  destruct IH as [H|(i' & Hin & Hlen & H)].
  - rewrite H. exact Hhere.
  - right. exists i'. split; [apply list_elem_of_further, Hin|]. split; assumption.
Qed.

End Capture.

(** C8: an iteration whose read returns no byte leaves the loop by
    [break]: nothing is raised, the frame buffer and the frame counter are
    as before, and the inputs that follow are not consumed.  An iteration
    that finds the decoder exited ends the same way; only the line printed
    differs. *)
Theorem empty_read_exits
  (cfg : CameraCapture.config) (st : CameraCapture.state) (t : spec_float)
  (code : Z) (unread : list byte) (rest : list CameraCapture.io) :
  CameraCapture.step cfg st
    {| CameraCapture.poll := None; CameraCapture.raw_image := [];
       CameraCapture.clock := t |}
  = (CameraCapture.Exited, st, [CameraCapture.Printed CameraCapture.no_frame])
  /\ CameraCapture.step cfg st
       {| CameraCapture.poll := Some code; CameraCapture.raw_image := unread;
          CameraCapture.clock := t |}
     = (CameraCapture.Exited, st, [CameraCapture.Printed CameraCapture.not_running])
  /\ CameraCapture.run cfg st
       ({| CameraCapture.poll := None; CameraCapture.raw_image := [];
           CameraCapture.clock := t |} :: rest)
     = (CameraCapture.Exited, st, [CameraCapture.Printed CameraCapture.no_frame]).
Proof. repeat split. Qed.

(** C10, as stated, fails: with [take_frame = 2] the first read, 3 bytes
    of a 6-byte frame, is skipped by the stride; the loop goes on and no
    exception is raised. *)
Lemma short_read_skipped_counterexample :
  0 < len [Byte.x01; Byte.x02; Byte.x03]
    < CameraCapture.frame_size
        {| CameraCapture.take_frame := 2; CameraCapture.frame_shape := (1, 2, 3) |}
  /\ CameraCapture.step
       {| CameraCapture.take_frame := 2; CameraCapture.frame_shape := (1, 2, 3) |}
       (CameraCapture.start (SharedFrame.zeros (1, 2, 3)))
       {| CameraCapture.poll := None;
          CameraCapture.raw_image := [Byte.x01; Byte.x02; Byte.x03];
          CameraCapture.clock := round_int 100 |}
     = (CameraCapture.Continue,
        {| CameraCapture.frame_num := 1;
           CameraCapture.buffer := SharedFrame.zeros (1, 2, 3) |},
        []).
Proof. split; [vm_compute; split; reflexivity | vm_compute; reflexivity]. Qed.

(** C10 (amended): a read of more than zero and fewer than [frame_size]
    bytes never takes the clean exit.  On an iteration the stride keeps
    ([frame_num % take_frame == 0], every iteration when [take_frame] is
    1) the new time is stored, the reshape fails and [run] is left by the
    uncaught [ValueError], the raster untouched; on an iteration the
    stride skips the read is dropped and the loop goes on.  Over any run,
    the raster is the initial one or a read of exactly [frame_size]
    bytes. *)
Theorem short_read_dies_when_kept
  (cfg : CameraCapture.config) (st : CameraCapture.state) (i : CameraCapture.io) :
  CameraCapture.poll i = None ->
  0 < len (CameraCapture.raw_image i) < CameraCapture.frame_size cfg ->
  CameraCapture.take_frame cfg <> 0 ->
  ((CameraCapture.frame_num st + 1) mod CameraCapture.take_frame cfg = 0 ->
     CameraCapture.step cfg st i =
       (CameraCapture.Died ValueError,
        {| CameraCapture.frame_num := CameraCapture.frame_num st + 1;
           CameraCapture.buffer :=
             {| current_frame := current_frame (CameraCapture.buffer st);
                frame_time := CameraCapture.clock i |} |},
        []))
  /\ ((CameraCapture.frame_num st + 1) mod CameraCapture.take_frame cfg <> 0 ->
      CameraCapture.step cfg st i =
        (CameraCapture.Continue,
         {| CameraCapture.frame_num := CameraCapture.frame_num st + 1;
            CameraCapture.buffer := CameraCapture.buffer st |},
         []))
  /\ (CameraCapture.step cfg st i).1.1 <> CameraCapture.Exited
  /\ (forall ios st0,
        current_frame (CameraCapture.buffer (CameraCapture.run cfg st0 ios).1.2)
          = current_frame (CameraCapture.buffer st0)
        \/ exists i', i' ∈ ios
             /\ len (CameraCapture.raw_image i') = CameraCapture.frame_size cfg
             /\ current_frame (CameraCapture.buffer (CameraCapture.run cfg st0 ios).1.2)
                = CameraCapture.raw_image i').
Proof.
  intros Hpoll [Hpos Hlt] Htake.
  assert (Hstep : CameraCapture.step cfg st i =
    if negb ((CameraCapture.frame_num st + 1) mod CameraCapture.take_frame cfg =? 0)
    then (CameraCapture.Continue,
          {| CameraCapture.frame_num := CameraCapture.frame_num st + 1;
             CameraCapture.buffer := CameraCapture.buffer st |}, [])
    else (CameraCapture.Died ValueError,
          {| CameraCapture.frame_num := CameraCapture.frame_num st + 1;
             CameraCapture.buffer :=
               {| current_frame := current_frame (CameraCapture.buffer st);
                  frame_time := CameraCapture.clock i |} |}, [])).
  { unfold CameraCapture.step, reshape. rewrite Hpoll.
    destruct (Z.eqb_spec (len (CameraCapture.raw_image i)) 0); [lia|].
    destruct (Z.eqb_spec (CameraCapture.take_frame cfg) 0); [contradiction|].
    destruct (negb _); [reflexivity|].
    unfold CameraCapture.frame_size in Hlt.
    destruct (Z.eqb_spec (len (CameraCapture.raw_image i))
                (frame_size_of (CameraCapture.frame_shape cfg))); [lia|reflexivity]. }
  rewrite Hstep.
  destruct (Z.eqb_spec ((CameraCapture.frame_num st + 1) mod CameraCapture.take_frame cfg) 0)
    as [Hz|Hnz]; simpl.
  - split; [reflexivity|]. split; [contradiction|]. split; [discriminate|].
    intros ios st0. apply run_raster.
  - split; [contradiction|]. split; [reflexivity|]. split; [discriminate|].
    intros ios st0. apply run_raster.
Qed.

Lemma short_read_dies_when_kept_witness :
  CameraCapture.step
    {| CameraCapture.take_frame := 1; CameraCapture.frame_shape := (1, 2, 3) |}
    (CameraCapture.start (SharedFrame.zeros (1, 2, 3)))
    {| CameraCapture.poll := None;
       CameraCapture.raw_image := [Byte.x01; Byte.x02; Byte.x03];
       CameraCapture.clock := round_int 100 |}
  = (CameraCapture.Died ValueError,
     {| CameraCapture.frame_num := 1;
        CameraCapture.buffer :=
          {| current_frame := current_frame (SharedFrame.zeros (1, 2, 3));
             frame_time := round_int 100 |} |},
     []).
Proof.
  refine (proj1 (short_read_dies_when_kept
    {| CameraCapture.take_frame := 1; CameraCapture.frame_shape := (1, 2, 3) |}
    (CameraCapture.start (SharedFrame.zeros (1, 2, 3)))
    {| CameraCapture.poll := None;
       CameraCapture.raw_image := [Byte.x01; Byte.x02; Byte.x03];
       CameraCapture.clock := round_int 100 |} _ _ _) _).
  - reflexivity.
  - vm_compute. split; reflexivity.
  - simpl. lia.
  - reflexivity.
Defined.

(* ===================================================================== *)
(** * Properties of the frame tracker *)
(* ===================================================================== *)

Section Tracker.

Import FrameTracker.

Implicit Types (d : frames) (k now : spec_float) (ks : list spec_float).

(** [==] on floats holds between a number and itself and between the two
    zeros. *)
Lemma key_eq_true a b :
  key_eq a b = true ->
  (a = b /\ is_nan a = false) \/ (exists s s', a = S754_zero s /\ b = S754_zero s').
Proof.
  unfold key_eq, SFeqb.
  destruct a as [s| s | |s m e], b as [s'|s'| |s' m' e']; simpl; try discriminate;
    try (destruct s; discriminate); try (destruct s'; discriminate).
  - intros _. right. eauto.
  - destruct s, s'; try discriminate; intros _; left; split; reflexivity.
  - destruct s, s'; try discriminate;
      destruct (Z.compare_spec e e') as [->| |]; try discriminate;
      intros H; left; split; try reflexivity; f_equal.
    + destruct (Pos.compare_cont Eq m m') eqn:E; try discriminate.
      apply Pos.compare_eq in E. exact E.
    + destruct (Pos.compare_cont Eq m m') eqn:E; try discriminate.
      apply Pos.compare_eq in E. exact E.
Qed.

Lemma key_eq_refl k : is_nan k = false -> key_eq k k = true.
Proof.
  unfold key_eq, SFeqb. destruct k as [s|s| |s m e]; simpl; try discriminate; intros _.
  - reflexivity.
  - destruct s; reflexivity.
  - destruct s; rewrite Z.compare_refl;
      change (Pos.compare_cont Eq m m) with (Pos.compare m m);
      rewrite Pos.compare_refl; reflexivity.
Qed.

Lemma key_eq_sym a b : key_eq a b = true -> key_eq b a = true.
Proof.
  intros H. destruct (key_eq_true _ _ H) as [[-> Hn]|(s & s' & -> & ->)].
  - exact H.
  - reflexivity.
Qed.

Lemma key_eq_trans a b c : key_eq a b = true -> key_eq b c = true -> key_eq a c = true.
Proof.
  intros H1 H2.
  destruct (key_eq_true _ _ H1) as [[-> _]|(s & s' & -> & ->)]; [exact H2|].
  destruct (key_eq_true _ _ H2) as [[<- _]|(s1 & s2 & _ & ->)]; reflexivity.
Qed.

(** A frame that is too old is a number; the test does not tell equal
    keys apart. *)
Lemma too_old_number now k : too_old now k = true -> is_nan k = false.
Proof. destruct k; try reflexivity. destruct now; discriminate. Qed.

Lemma too_old_key_eq now a b : key_eq a b = true -> too_old now a = too_old now b.
Proof.
  intros H. destruct (key_eq_true _ _ H) as [[-> _]|(s & s' & -> & ->)]; [reflexivity|].
  unfold too_old, fsub. destruct now as [[]|[]| |[] m e], s, s'; reflexivity.
Qed.

Lemma existsb_false {A} (f : A -> bool) (l : list A) :
  existsb f l = false <-> forall x, In x l -> f x = false.
Proof.
  induction l as [|a l IH]; simpl.
  - split; [intros _ x []|reflexivity].
  - rewrite orb_false_iff, IH. split.
    + intros [Ha Hl] x [<-|Hx]; auto.
    + intros H. split; [apply H; left; reflexivity|]. intros x Hx. apply H. right. exact Hx.
Qed.

Lemma filter_all {A} (f : A -> bool) (l : list A) :
  (forall x, In x l -> f x = true) -> List.filter f l = l.
Proof.
  induction l as [|a l IH]; intros H; simpl; [reflexivity|].
  rewrite (H a (or_introl eq_refl)). f_equal. apply IH. intros x Hx. apply H. right. exact Hx.
Qed.

Lemma filter_filter {A} (f g : A -> bool) (l : list A) :
  List.filter g (List.filter f l) = List.filter (fun x => f x && g x) l.
Proof.
  induction l as [|a l IH]; simpl; [reflexivity|].
  destruct (f a); simpl; [destruct (g a)|]; rewrite IH; reflexivity.
Qed.

Lemma in_keys d k : In k (keys d) <-> exists v, In (k, v) d.
Proof.
  unfold keys. rewrite in_map_iff. split.
  - intros ([k' v] & <- & H). eauto.
  - intros (v & H). exists (k, v). auto.
Qed.

Lemma keys_filter_in (f : spec_float * list byte -> bool) d k :
  In k (keys (List.filter f d)) -> In k (keys d).
Proof.
  rewrite !in_keys. intros (v & H). apply filter_In in H. exists v. tauto.
Qed.

Lemma distinct_filter (f : spec_float * list byte -> bool) d :
  distinct_keys d = true -> distinct_keys (List.filter f d) = true.
Proof.
  unfold distinct_keys. induction d as [|[k v] d IH]; simpl; [reflexivity|].
  rewrite andb_true_iff, negb_true_iff. intros [Hk Hd].
  destruct (f (k, v)); simpl; [|auto].
  rewrite andb_true_iff, negb_true_iff. split; [|auto].
  apply existsb_false. intros k' Hk'. apply keys_filter_in in Hk'.
  revert k' Hk'. apply existsb_false. exact Hk.
Qed.

(** [del d[k]] on a key that is present removes its one entry. *)
Lemma delitem_present d k :
  distinct_keys d = true -> has_key d k = true ->
  delitem d k = Ok (List.filter (fun e => negb (key_eq e.1 k)) d).
Proof.
  unfold distinct_keys, has_key.
  induction d as [|[k' v'] d IH]; simpl; [discriminate|].
  rewrite andb_true_iff, negb_true_iff. intros [Hk' Hd] Hhas.
  destruct (key_eq k' k) eqn:E; simpl.
  - f_equal. symmetry. apply filter_all. intros [k2 v2] Hin. simpl.
    apply negb_true_iff. destruct (key_eq k2 k) eqn:E2; [|reflexivity].
    assert (Hc : key_eq k2 k' = true)
      by (eapply key_eq_trans; [exact E2|apply key_eq_sym, E]).
    rewrite (proj1 (existsb_false _ _) Hk' k2) in Hc; [discriminate|].
    apply in_keys. eauto.
  - rewrite (IH Hd Hhas). reflexivity.
Qed.

(** The entries a pass over the keys [ks] deletes. *)
Lemma prune_filter now ks : forall d,
  distinct_keys d = true -> distinct ks = true ->
  (forall k, In k ks -> too_old now k = true -> has_key d k = true) ->
  prune now ks d =
    Ok (List.filter
          (fun e => negb (existsb (fun k => too_old now k && key_eq e.1 k) ks)) d).
Proof.
  induction ks as [|k ks IH]; intros d Hd Hks Hin; simpl.
  - rewrite filter_all; [reflexivity|auto].
  - simpl in Hks. apply andb_true_iff in Hks as [Hk Hks]. apply negb_true_iff in Hk.
    destruct (too_old now k) eqn:Eold; simpl.
    + rewrite (delitem_present d k Hd (Hin k (or_introl eq_refl) Eold)). simpl.
      rewrite IH; [| apply distinct_filter, Hd | exact Hks |].
      * rewrite filter_filter. f_equal. apply filter_ext. intros e.
        rewrite negb_orb. reflexivity.
      * intros k2 Hk2 Hold2.
        pose proof (Hin k2 (or_intror Hk2) Hold2) as Hhas.
        unfold has_key in *. apply existsb_exists in Hhas as (k3 & Hk3 & E3).
        apply existsb_exists. exists k3. split; [|exact E3].
        apply in_keys in Hk3 as (v3 & Hv3). apply in_keys. exists v3.
        apply filter_In. split; [exact Hv3|]. simpl. apply negb_true_iff.
        destruct (key_eq k3 k) eqn:E; [|reflexivity].
        assert (Hc : key_eq k2 k = true)
          by (eapply key_eq_trans; [apply key_eq_sym, E3|exact E]).
        rewrite (proj1 (existsb_false _ _) Hk k2 Hk2) in Hc. discriminate.
    + apply IH; [exact Hd|exact Hks|]. intros k2 Hk2. apply Hin. right. exact Hk2.
Qed.

(** Lines 45-48 keep exactly the entries that are not too old for the
    [now] of the iteration. *)
Lemma prune_keys now d :
  distinct_keys d = true ->
  prune now (keys d) d = Ok (List.filter (fun e => negb (too_old now e.1)) d).
Proof.
  intros Hd. rewrite prune_filter; [|exact Hd|exact Hd|].
  - f_equal. apply filter_ext_in. intros [k v] Hin. simpl. f_equal.
    destruct (too_old now k) eqn:Eold.
    + apply existsb_exists. exists k. split; [apply in_keys; eauto|].
      rewrite Eold. apply key_eq_refl. eapply too_old_number, Eold.
    + apply existsb_false. intros k' _.
      destruct (key_eq k k') eqn:E; [|apply andb_false_r].
      rewrite <- (too_old_key_eq now _ _ E), Eold. reflexivity.
  - intros k Hk Hold. unfold has_key. apply existsb_exists. exists k.
    split; [exact Hk|]. apply key_eq_refl. eapply too_old_number, Hold.
Qed.

Lemma setitem_keys_exists (f : spec_float -> bool) d k v :
  existsb f (keys (setitem d k v)) = true -> existsb f (keys d) = true \/ f k = true.
Proof.
  induction d as [|[k' v'] d IH]; simpl.
  - rewrite orb_false_r. auto.
  - destruct (key_eq k' k); simpl; [auto|].
    rewrite !orb_true_iff. intros [H|H]; [auto|]. destruct (IH H); auto.
Qed.

Lemma distinct_setitem d k v :
  distinct_keys d = true -> distinct_keys (setitem d k v) = true.
Proof.
  unfold distinct_keys. induction d as [|[k' v'] d IH]; simpl; [reflexivity|].
  rewrite andb_true_iff, negb_true_iff. intros [Hk Hd].
  destruct (key_eq k' k) eqn:E; simpl; rewrite andb_true_iff, negb_true_iff.
  - auto.
  - split; [|auto].
    destruct (existsb _ (keys (setitem d k v))) eqn:Ex; [|reflexivity].
    apply setitem_keys_exists in Ex as [Ex|Ex]; [congruence|].
    apply key_eq_sym in Ex. congruence.
Qed.

(** One iteration: nothing is raised, and the entries kept are those not
    too old for the [now] of the iteration. *)
Lemma step_prunes (st : state) (i : io) :
  distinct_keys (recent_frames st) = true ->
  step st i =
    Ok {| last_frame_time := frame_time (copied i);
          recent_frames :=
            List.filter (fun e => negb (too_old (now i) e.1)) (recorded st i) |}.
Proof.
  intros Hd. unfold step.
  assert (Hrec : distinct_keys (recorded st i) = true) by apply distinct_setitem, Hd.
  rewrite (prune_keys _ _ Hrec). reflexivity.
Qed.

(** The loop never raises, and its dictionary keeps distinct keys. *)
Lemma run_distinct (ios : list io) : forall st,
  distinct_keys (recent_frames st) = true ->
  exists st', run st ios = Ok st' /\ distinct_keys (recent_frames st') = true.
Proof.
  induction ios as [|i rest IH]; intros st Hd; simpl.
  - exists st. auto.
  - rewrite (step_prunes st i Hd). simpl. apply IH. simpl.
    apply distinct_filter, distinct_setitem, Hd.
Qed.

End Tracker.

(** C1, as stated, fails.  The dictionary holds the frame of time 9; the
    iteration reads [now = 10], waits (the shared time is still the one it
    consumed), and wakes to a frame stamped 100, which it records.  The
    prune then runs at a wall-clock time of at least 100, but it tests
    against [now = 10]: the frame of time 9 stays, more than 2 seconds
    old. *)
Lemma stale_now_counterexample :
  FrameTracker.must_wait
    {| FrameTracker.last_frame_time := round_int 9;
       FrameTracker.recent_frames := [(round_int 9, [])] |}
    {| FrameTracker.now := round_int 10;
       FrameTracker.seen_first := round_int 9;
       FrameTracker.seen_second := round_int 9;
       FrameTracker.copied := {| current_frame := []; frame_time := round_int 100 |} |}
  = true
  /\ FrameTracker.step
       {| FrameTracker.last_frame_time := round_int 9;
          FrameTracker.recent_frames := [(round_int 9, [])] |}
       {| FrameTracker.now := round_int 10;
          FrameTracker.seen_first := round_int 9;
          FrameTracker.seen_second := round_int 9;
          FrameTracker.copied := {| current_frame := []; frame_time := round_int 100 |} |}
     = Ok {| FrameTracker.last_frame_time := round_int 100;
             FrameTracker.recent_frames := [(round_int 9, []); (round_int 100, [])] |}
  /\ SFleb (round_int 10) (round_int 100) = true
  /\ FrameTracker.too_old (round_int 100) (round_int 9) = true.
Proof. repeat split; vm_compute; reflexivity. Qed.

(** C1 (amended): in every iteration of the frame tracker, after any
    number of earlier iterations from the empty dictionary, the prune step
    measures age against [now] as read at the start of that iteration,
    before the wait for a frame.  It raises nothing and keeps, of the
    entries present once the copied frame is recorded, exactly those whose
    age against that reading does not exceed 2 seconds: no such entry is
    evicted and no older one is retained. *)
Theorem prune_against_iteration_start
  (earlier : list FrameTracker.io) (i : FrameTracker.io) :
  exists st,
    FrameTracker.run (FrameTracker.start []) earlier = Ok st
    /\ FrameTracker.step st i =
         Ok {| FrameTracker.last_frame_time := frame_time (FrameTracker.copied i);
               FrameTracker.recent_frames :=
                 List.filter
                   (fun e => negb (FrameTracker.too_old (FrameTracker.now i) e.1))
                   (FrameTracker.recorded st i) |}
    /\ (forall st', FrameTracker.step st i = Ok st' ->
          forall k v,
            In (k, v) (FrameTracker.recent_frames st') <->
            In (k, v) (FrameTracker.recorded st i)
            /\ FrameTracker.too_old (FrameTracker.now i) k = false).
Proof.
  destruct (run_distinct earlier (FrameTracker.start []) eq_refl) as (st & Hrun & Hd).
  exists st. split; [exact Hrun|].
  pose proof (step_prunes st i Hd) as Hstep.
  split; [exact Hstep|]. intros st' Hst'. rewrite Hstep in Hst'.
  injection Hst' as <-. simpl.
  intros k v. rewrite filter_In. simpl. rewrite negb_true_iff. reflexivity.
Qed.

(* ===================================================================== *)
(** * Properties of the render cache *)
(* ===================================================================== *)

Lemma float_eq_refl (f : spec_float) : is_nan f = false -> num_eq (Float f) (Float f) = true.
Proof. intros H. apply (key_eq_refl f) in H. unfold num_eq. simpl. exact H. Qed.

Lemma cache_hit
  (render : list byte -> list detected_object -> list region -> spec_float ->
            result (list byte))
  (cam : RenderCache.camera) :
  num_eq (Float (frame_time (RenderCache.buffer cam)))
    (RenderCache.cached_frame_time (RenderCache.cached_frame_with_objects cam)) = true ->
  RenderCache.get_current_frame_with_objects render cam =
    {| RenderCache.returned :=
         Ok (RenderCache.frame_bytes (RenderCache.cached_frame_with_objects cam));
       RenderCache.cache_after := RenderCache.cached_frame_with_objects cam;
       RenderCache.rendered := false |}.
Proof. intros H. unfold RenderCache.get_current_frame_with_objects. rewrite H. reflexivity. Qed.

(** C6: when the time of the cached entry equals the time copied from the
    frame buffer, the cached bytes are returned as they are, the cache is
    unchanged and nothing is drawn or encoded.  So after a call that
    returned [b], a second call with no write to the frame buffer in
    between returns the same [b] without rendering, whatever was appended
    to [detected_objects] meanwhile.  (The frame time is a clock reading
    or the initial 0.0, never a NaN.) *)
Theorem second_call_hits_cache
  (render : list byte -> list detected_object -> list region -> spec_float ->
            result (list byte))
  (cam : RenderCache.camera) (b : list byte) (later : list detected_object) :
  is_nan (frame_time (RenderCache.buffer cam)) = false ->
  RenderCache.returned (RenderCache.get_current_frame_with_objects render cam) = Ok b ->
  RenderCache.get_current_frame_with_objects render
    {| RenderCache.regions := RenderCache.regions cam;
       RenderCache.detected_objects := later;
       RenderCache.buffer := RenderCache.buffer cam;
       RenderCache.cached_frame_with_objects :=
         RenderCache.cache_after (RenderCache.get_current_frame_with_objects render cam) |}
  = {| RenderCache.returned := Ok b;
       RenderCache.cache_after :=
         RenderCache.cache_after (RenderCache.get_current_frame_with_objects render cam);
       RenderCache.rendered := false |}
  /\ (num_eq (Float (frame_time (RenderCache.buffer cam)))
        (RenderCache.cached_frame_time (RenderCache.cached_frame_with_objects cam)) = true ->
      RenderCache.get_current_frame_with_objects render cam =
        {| RenderCache.returned :=
             Ok (RenderCache.frame_bytes (RenderCache.cached_frame_with_objects cam));
           RenderCache.cache_after := RenderCache.cached_frame_with_objects cam;
           RenderCache.rendered := false |}).
Proof.
  intros Hnan Hret. split; [|apply cache_hit].
  unfold RenderCache.get_current_frame_with_objects in Hret |- * at 2 3.
  destruct (num_eq _ _) eqn:Ehit.
  - simpl in Hret. injection Hret as <-. simpl.
    rewrite cache_hit; simpl; [reflexivity|exact Ehit].
  - destruct (render _ _ _ _) as [jpg|e]; simpl in Hret; [|discriminate].
    injection Hret as <-. simpl.
    rewrite cache_hit; simpl; [reflexivity|apply float_eq_refl, Hnan].
Qed.

Lemma second_call_hits_cache_witness :
  RenderCache.get_current_frame_with_objects
    (fun _ _ _ _ => Ok [Byte.xff; Byte.xd8])
    {| RenderCache.regions := [];
       RenderCache.detected_objects := [example_detected (literal 9 10)];
       RenderCache.buffer := {| current_frame := [Byte.x01]; frame_time := round_int 100 |};
       RenderCache.cached_frame_with_objects :=
         {| RenderCache.frame_bytes := [Byte.xff; Byte.xd8];
            RenderCache.cached_frame_time := Float (round_int 100) |} |}
  = {| RenderCache.returned := Ok [Byte.xff; Byte.xd8];
       RenderCache.cache_after :=
         {| RenderCache.frame_bytes := [Byte.xff; Byte.xd8];
            RenderCache.cached_frame_time := Float (round_int 100) |};
       RenderCache.rendered := false |}.
Proof.
  refine (proj1 (second_call_hits_cache
    (fun _ _ _ _ => Ok [Byte.xff; Byte.xd8])
    {| RenderCache.regions := [];
       RenderCache.detected_objects := [];
       RenderCache.buffer := {| current_frame := [Byte.x01]; frame_time := round_int 100 |};
       RenderCache.cached_frame_with_objects :=
         {| RenderCache.frame_bytes := []; RenderCache.cached_frame_time := Int 0 |} |}
    [Byte.xff; Byte.xd8] [example_detected (literal 9 10)] _ _)).
  - reflexivity.
  - vm_compute. reflexivity.
Defined.

(** C9: before any frame is captured the frame time is the initial 0.0,
    which equals the initial [frame_time] 0 of the cache: the call takes
    the cache-hit branch and returns the initial empty [frame_bytes],
    drawing and encoding nothing, whatever the frame and the detected
    objects are. *)
Theorem first_call_returns_empty_bytes
  (render : list byte -> list detected_object -> list region -> spec_float ->
            result (list byte))
  (regions : list region) (frame_shape : Z * Z * Z)
  (detected : list detected_object) (frame : list byte) :
  RenderCache.get_current_frame_with_objects render (RenderCache.init regions frame_shape)
  = {| RenderCache.returned := Ok [];
       RenderCache.cache_after :=
         {| RenderCache.frame_bytes := []; RenderCache.cached_frame_time := Int 0 |};
       RenderCache.rendered := false |}
  /\ RenderCache.get_current_frame_with_objects render
       {| RenderCache.regions := regions;
          RenderCache.detected_objects := detected;
          RenderCache.buffer := {| current_frame := frame; frame_time := S754_zero false |};
          RenderCache.cached_frame_with_objects :=
            RenderCache.cached_frame_with_objects (RenderCache.init regions frame_shape) |}
     = {| RenderCache.returned := Ok [];
          RenderCache.cache_after :=
            {| RenderCache.frame_bytes := []; RenderCache.cached_frame_time := Int 0 |};
          RenderCache.rendered := false |}.
Proof. split; reflexivity. Qed.

(* ===================================================================== *)
(** * Properties of the threads around the frame buffer *)
(* ===================================================================== *)

Section Interleaving.

Import SharedFrame.

Variable frame_shape : Z * Z * Z.

Implicit Types (s : system) (a : action) (th : thread) (i j : nat).

Lemma thread_inv_lock s i th :
  critical th = true -> thread_inv frame_shape s i th -> lock s = Some i.
Proof.
  destruct th as [[]|[]]; simpl; try discriminate; intros _ H; apply H.
Qed.

Lemma thread_inv_outside s s' i th :
  critical th = false -> thread_inv frame_shape s i th -> thread_inv frame_shape s' i th.
Proof. destruct th as [[]|[]]; simpl; try discriminate; auto. Qed.

Lemma thread_inv_frame s s' i th :
  lock s' = lock s -> shared s' = shared s -> written s' = written s ->
  thread_inv frame_shape s i th -> thread_inv frame_shape s' i th.
Proof.
  intros Hl Hs Hw. destruct th as [[]|[]]; simpl; rewrite ?Hl, ?Hs, ?Hw; auto.
Qed.

(** When thread [i] moves from [th0] to [th'], having taken a free lock,
    or from inside its block, or without touching the shared state, the
    other threads keep what they know. *)
Lemma others_keep s s' i th0 th' :
  (forall j th, threads s !! j = Some th -> thread_inv frame_shape s j th) ->
  threads s !! i = Some th0 ->
  threads s' = <[i := th']> (threads s) ->
  lock s = None \/ critical th0 = true
  \/ (lock s' = lock s /\ shared s' = shared s /\ written s' = written s) ->
  thread_inv frame_shape s' i th' ->
  forall j th, threads s' !! j = Some th -> thread_inv frame_shape s' j th.
Proof.
  intros Hall Hi Hth Hcase Hnew j th Hj. rewrite Hth in Hj.
  destruct (decide (j = i)) as [->|Hne].
  - rewrite list_lookup_insert_eq in Hj by (eapply lookup_lt_Some, Hi).
    injection Hj as <-. exact Hnew.
  - rewrite list_lookup_insert_ne in Hj by congruence.
    pose proof (Hall j th Hj) as Hold.
    destruct (critical th) eqn:Ecrit; [|eapply thread_inv_outside; eauto].
    pose proof (thread_inv_lock _ _ _ Ecrit Hold) as Hlock.
    destruct Hcase as [Hfree|[Hcrit|(Hl & Hs & Hw)]].
    + congruence.
    + pose proof (thread_inv_lock _ _ _ Hcrit (Hall i th0 Hi)). congruence.
    + eapply thread_inv_frame; eauto.
Qed.

(** The owner of the lock stays inside its block when thread [i] moves
    and stays inside too, or leaves and releases. *)
Lemma owner_kept s s' i th0 th' :
  (forall j, lock s = Some j -> exists th, threads s !! j = Some th /\ critical th = true) ->
  threads s !! i = Some th0 ->
  threads s' = <[i := th']> (threads s) ->
  (lock s' = None) \/ (lock s' = Some i /\ critical th' = true)
  \/ (lock s' = lock s /\ critical th0 = false /\ critical th' = false) ->
  forall j, lock s' = Some j -> exists th, threads s' !! j = Some th /\ critical th = true.
Proof.
  intros Hown Hi Hth Hcase j Hj. rewrite Hth.
  destruct Hcase as [Hnone|[[Hl Hc]|(Hl & Hc0 & Hc')]].
  - congruence.
  - assert (j = i) as -> by congruence. exists th'.
    rewrite list_lookup_insert_eq by (eapply lookup_lt_Some, Hi). auto.
  - rewrite Hl in Hj. destruct (Hown j Hj) as (th & Hth' & Hc).
    destruct (decide (j = i)) as [->|Hne]; [congruence|].
    exists th. rewrite list_lookup_insert_ne by congruence. auto.
Qed.

Lemma write_element (frame old : list byte) (k : nat) (b : byte) :
  length frame = length old -> frame !! k = Some b ->
  <[k := b]> (take k frame ++ drop k old) = take (S k) frame ++ drop (S k) old.
Proof.
  intros Hlen Hk. pose proof (lookup_lt_Some _ _ _ Hk) as Hlt.
  destruct (lookup_lt_is_Some_2 old k) as [x Hx]; [lia|].
  rewrite (take_S_r _ _ _ Hk), (drop_S _ _ _ Hx), <- app_assoc. simpl.
  rewrite insert_app_r_alt by (rewrite length_take; lia).
  rewrite length_take, Nat.min_l, Nat.sub_diag by lia. reflexivity.
Qed.

Lemma write_finished (frame old : list byte) (k : nat) :
  length frame = length old -> frame !! k = None ->
  take k frame ++ drop k old = frame.
Proof.
  intros Hlen Hk. apply lookup_ge_None in Hk.
  rewrite take_ge, drop_ge, app_nil_r by lia. reflexivity.
Qed.

Lemma read_element (frame acc : list byte) (b : byte) :
  acc = take (length acc) frame -> frame !! length acc = Some b ->
  acc ++ [b] = take (length (acc ++ [b])) frame.
Proof.
  intros Hacc Hb. rewrite length_app. simpl. rewrite Nat.add_1_r.
  rewrite (take_S_r _ _ _ Hb), <- Hacc. reflexivity.
Qed.

Lemma read_finished (frame acc : list byte) :
  acc = take (length acc) frame -> frame !! length acc = None -> acc = frame.
Proof.
  intros Hacc Hn. apply lookup_ge_None in Hn. rewrite Hacc. apply take_ge. exact Hn.
Qed.

Lemma reshape_ok raw frame :
  reshape raw frame_shape = Ok frame ->
  frame = raw /\ length raw = Z.to_nat (frame_size_of frame_shape).
Proof.
  unfold reshape, len. destruct (Z.eqb_spec (Z.of_nat (length raw)) (frame_size_of frame_shape));
    [|discriminate].
  intros [= <-]. split; [reflexivity|lia].
Qed.

Lemma init_invariant pool : invariant frame_shape (init frame_shape pool).
Proof.
  unfold invariant, init. simpl. split; [apply length_replicate|].
  split; [reflexivity|]. split; [discriminate|].
  intros i th Hi. rewrite list_lookup_fmap in Hi.
  destruct (pool !! i) as [[]|]; simpl in Hi; inversion Hi; exact I.
Qed.

Ltac step_done Hown Hall Hi :=
  unfold invariant;
  split; [simpl
  | split; [simpl
  | split; [ eapply owner_kept; [exact Hown | exact Hi | reflexivity | simpl]
           | eapply others_keep; [exact Hall | exact Hi | reflexivity | simpl | simpl] ] ] ].

Lemma lock_free s (o : option system) (k : option system) :
  match lock s with None => o | Some _ => None end = k -> k <> None -> lock s = None.
Proof. destruct (lock s); [intros <- H; contradiction|reflexivity]. Qed.

(** Every step keeps the invariant. *)
Lemma exec_invariant s a s' :
  invariant frame_shape s -> exec frame_shape s a = Some s' -> invariant frame_shape s'.
Proof.
  intros (Hlen & Hfree & Hown & Hall) Hexec. unfold exec in Hexec.
  destruct (threads s !! tid a) as [th0|] eqn:Hi; [|discriminate].
  pose proof (Hall _ _ Hi) as Hme.
  destruct th0 as [[|raw0|raw0 t|frame t k| |e]|[|snap acc|snap frame|snap frame t|snap frame t]];
    simpl in Hexec, Hme; unfold move in Hexec.
  - (* a capture thread takes the lock *)
    pose proof (lock_free _ _ _ Hexec ltac:(discriminate)) as Hl.
    rewrite Hl in Hexec. injection Hexec as <-.
    step_done Hown Hall Hi; auto; try discriminate.
  - (* it stores the time *)
    destruct Hme as [Hl Hs]. injection Hexec as <-.
    step_done Hown Hall Hi; auto; try congruence.
    split; [exact Hl|]. rewrite Hs. reflexivity.
  - (* the reshape *)
    destruct Hme as [Hl Hs].
    destruct (reshape raw0 frame_shape) as [frame|e] eqn:Er; injection Hexec as <-.
    + apply reshape_ok in Er as [-> Hraw].
      step_done Hown Hall Hi; auto; try congruence.
      
    + step_done Hown Hall Hi; auto.
      
  - (* one element of the raster, or the end of the block *)
    destruct Hme as (Hl & Hf & Hs).
    destruct (frame !! k) as [b|] eqn:Ek; injection Hexec as <-.
    + step_done Hown Hall Hi; auto; try congruence.
      split; [exact Hl|]. split; [exact Hf|]. rewrite Hs. unfold set_frame. simpl.
      f_equal. apply write_element; [congruence|exact Ek].
    + step_done Hown Hall Hi; auto.
      intros _. rewrite Hs. f_equal. apply write_finished; [congruence|exact Ek].
  - (* notify_all *)
    injection Hexec as <-. step_done Hown Hall Hi; auto.
  - discriminate.
  - (* a reader takes the lock *)
    pose proof (lock_free _ _ _ Hexec ltac:(discriminate)) as Hl.
    rewrite Hl in Hexec. injection Hexec as <-.
    step_done Hown Hall Hi; auto; try discriminate.
  - (* one element of the copy, or its end *)
    destruct Hme as (Hl & Hs & Hw & Hacc).
    destruct (current_frame (shared s) !! length acc) as [b|] eqn:Ek;
      injection Hexec as <-; step_done Hown Hall Hi; auto; try congruence.
    + repeat (split; [assumption|]). apply read_element; [exact Hacc|congruence].
    + repeat (split; [assumption|]). apply read_finished; [exact Hacc|congruence].
  - (* the time *)
    destruct Hme as (Hl & Hs & Hw & Hf). injection Hexec as <-.
    step_done Hown Hall Hi; auto; try congruence.
    repeat (split; [assumption|]). congruence.
  - (* the reader leaves the block *)
    destruct Hme as (Hl & Hs & Hw & Hf & Ht). injection Hexec as <-.
    step_done Hown Hall Hi; auto; try congruence.
  - (* the next read *)
    injection Hexec as <-. step_done Hown Hall Hi; auto.
Qed.

Lemma run_invariant schedule : forall s s',
  invariant frame_shape s -> run frame_shape s schedule = Some s' ->
  invariant frame_shape s'.
Proof.
  induction schedule as [|a rest IH]; intros s s' Hinv Hrun; simpl in Hrun.
  - injection Hrun as <-. exact Hinv.
  - destruct (exec frame_shape s a) as [s1|] eqn:E; [|discriminate].
    eapply IH; [eapply exec_invariant; eauto|exact Hrun].
Qed.

End Interleaving.

(* ===================================================================== *)
(** * Properties of [Camera.__init__] *)
(* ===================================================================== *)

Section Init.

Import CameraInit.

Implicit Types (global camera region_objects : gmap string (gmap string num)).

Lemma lookup_inserted {V} (f : string -> V) (l : list string) (obj : string) :
  foldr (fun k m => <[k := f k]> m) (∅ : gmap string V) l !! obj
  = if decide (obj ∈ l) then Some (f obj) else None.
Proof.
  induction l as [|k l IH]; simpl.
  - rewrite lookup_empty. destruct (decide (obj ∈ [])) as [H|]; [|reflexivity].
    apply elem_of_nil in H. contradiction.
  - destruct (decide (k = obj)) as [->|Hne].
    + rewrite lookup_insert_eq. rewrite decide_True by apply list_elem_of_here. reflexivity.
    + rewrite lookup_insert_ne by exact Hne. rewrite IH.
      destruct (decide (obj ∈ l)) as [Hin|Hnin].
      * rewrite decide_True by (apply list_elem_of_further, Hin). reflexivity.
      * rewrite decide_False; [reflexivity|].
        intros H. apply elem_of_cons in H as [->|H]; [congruence|contradiction].
Qed.

Lemma lookup_merged global camera region_objects obj :
  merged_objects_config global camera region_objects !! obj
  = if decide (obj ∈ objects_with_config global camera region_objects)
    then Some (merged_settings global camera region_objects obj) else None.
Proof.
  unfold merged_objects_config, set_fold. simpl.
  rewrite (lookup_inserted (merged_settings global camera region_objects)).
  destruct (decide (obj ∈ elements _)) as [H|H]; apply elem_of_elements in H || rewrite elem_of_elements in H.
  - rewrite decide_True by exact H. reflexivity.
  - rewrite decide_False by exact H. reflexivity.
Qed.

Lemma configured_somewhere global camera region_objects obj :
  obj ∈ objects_with_config global camera region_objects <->
  is_Some (global !! obj) \/ is_Some (camera !! obj) \/ is_Some (region_objects !! obj).
Proof.
  unfold objects_with_config. rewrite !elem_of_union, !elem_of_dom. tauto.
Qed.

Lemma merged_key global camera region_objects obj (key : string) :
  merged_settings global camera region_objects obj !! key
  = most_specific (get_or_empty region_objects obj !! key)
      (get_or_empty camera obj !! key) (get_or_empty global obj !! key).
Proof.
  unfold merged_settings, most_specific. rewrite !lookup_union.
  destruct (get_or_empty region_objects obj !! key),
    (get_or_empty camera obj !! key), (get_or_empty global obj !! key); reflexivity.
Qed.

End Init.

(** X1: after [Camera.__init__] a label has settings in a region exactly
    when it is configured globally, for the camera or for the region; and
    each of [min_area], [max_area], [threshold] is then the value of the
    most specific level that sets it (region, else camera, else
    global). *)
Theorem region_settings_most_specific
  (global camera : gmap string (gmap string num)) (conf : CameraInit.region_config)
  (label : string) :
  (objects (CameraInit.init_region global camera conf) !! label = None <->
     global !! label = None /\ camera !! label = None
     /\ default ∅ (CameraInit.config_objects conf) !! label = None)
  /\ (forall st, objects (CameraInit.init_region global camera conf) !! label = Some st ->
        min_area st =
          CameraInit.most_specific
            (CameraInit.get_or_empty (default ∅ (CameraInit.config_objects conf)) label
               !! "min_area"%string)
            (CameraInit.get_or_empty camera label !! "min_area"%string)
            (CameraInit.get_or_empty global label !! "min_area"%string)
        /\ max_area st =
             CameraInit.most_specific
               (CameraInit.get_or_empty (default ∅ (CameraInit.config_objects conf)) label
                  !! "max_area"%string)
               (CameraInit.get_or_empty camera label !! "max_area"%string)
               (CameraInit.get_or_empty global label !! "max_area"%string)
        /\ threshold st =
             CameraInit.most_specific
               (CameraInit.get_or_empty (default ∅ (CameraInit.config_objects conf)) label
                  !! "threshold"%string)
               (CameraInit.get_or_empty camera label !! "threshold"%string)
               (CameraInit.get_or_empty global label !! "threshold"%string)).
Proof.
  unfold CameraInit.init_region. simpl.
  rewrite lookup_fmap, lookup_merged.
  set (r := default ∅ (CameraInit.config_objects conf)).
  pose proof (configured_somewhere global camera r label) as Hin.
  destruct (decide (label ∈ CameraInit.objects_with_config global camera r)) as [H|H]; simpl.
  - split.
    + split; [discriminate|]. intros (Hg & Hc & Hr). apply Hin in H.
      rewrite Hg, Hc, Hr in H. destruct H as [[? [=]]|[[? [=]]|[? [=]]]].
    + intros st [= <-]. unfold CameraInit.settings_of. simpl.
      rewrite !merged_key. auto.
  - split; [|discriminate]. split; [|reflexivity]. intros _.
    rewrite !eq_None_not_Some. tauto.
Qed.

(* ===================================================================== *)
(** * More on [add_objects]: exceptions, batches, the mask bounds *)
(* ===================================================================== *)

Section Batches.

Implicit Types (regions : list region) (mask : mask_t).
Implicit Types (obj : raw_object) (objs : list raw_object).

(** Every batch is a part processed to its end, followed by nothing or
    by a detection that raises. *)
Lemma batch_split regions mask objs :
  exists done rest,
    objs = done ++ rest /\ processed regions mask done = true
    /\ match rest with
       | [] => True
       | bad :: _ => exists e, process_object regions mask bad = Raise e
       end.
Proof.
  unfold processed. induction objs as [|obj objs IH].
  - exists [], []. auto.
  - destruct (process_object regions mask obj) as [v|e] eqn:E.
    + destruct IH as (done & rest & -> & Hdone & Hrest).
      exists (obj :: done), rest. simpl. rewrite E. auto.
    + exists [], (obj :: objs). simpl. eauto.
Qed.

Lemma survivors_app regions mask objs objs' :
  survivors regions mask (objs ++ objs')
  = survivors regions mask objs ++ survivors regions mask objs'.
Proof. unfold survivors. apply omap_app. Qed.

(** A prefix that is processed to its end only adds its survivors. *)
Lemma add_loop_app regions mask pre : forall rest acc evs,
  processed regions mask pre = true ->
  add_loop regions mask (pre ++ rest) acc evs
  = add_loop regions mask rest (acc ++ survivors regions mask pre)
      (evs ++ map Appended (survivors regions mask pre)).
Proof.
  unfold processed, survivors.
  induction pre as [|obj pre IH]; intros rest acc evs Hall; simpl in *.
  - rewrite !app_nil_r. reflexivity.
  - apply andb_true_iff in Hall as [Hobj Hall].
    destruct (process_object regions mask obj) as [[d|]|e]; [| |discriminate].
    + rewrite (IH _ _ _ Hall). simpl. rewrite <- !app_assoc. reflexivity.
    + apply IH, Hall.
Qed.

Lemma add_loop_events_irrelevant regions mask objs : forall acc evs evs',
  detected (add_loop regions mask objs acc evs)
  = detected (add_loop regions mask objs acc evs')
  /\ raised (add_loop regions mask objs acc evs)
     = raised (add_loop regions mask objs acc evs').
Proof.
  induction objs as [|obj objs IH]; intros acc evs evs'; simpl; [auto|].
  destruct (process_object regions mask obj) as [[d|]|e]; simpl; auto.
Qed.

Lemma add_objects_loop regions mask det objs :
  detected (add_objects regions mask det objs)
  = detected (add_loop regions mask objs det [])
  /\ raised (add_objects regions mask det objs)
     = raised (add_loop regions mask objs det []).
Proof. destruct objs; simpl; auto. Qed.

(** A coordinate that is not finite makes [int(...)] raise. *)
Lemma scale_not_finite (b : spec_float) (sz off : Z) :
  is_finite_float b = false -> is_ok (scale b sz off) = false.
Proof.
  intros Hb. unfold scale.
  destruct (float_of_int sz) as [s|]; [simpl|reflexivity].
  destruct (float_of_int off) as [o|]; [simpl|reflexivity].
  unfold fadd, fmul.
  destruct b as [sb|sb| |sb mb eb]; try discriminate;
    destruct s as [ss|ss| |ss ms es]; simpl;
    destruct o as [so|so| |so mo eo]; simpl; try reflexivity;
    destruct (xorb sb ss), so; reflexivity.
Qed.

Lemma index_ok {A} (l : list A) (i : Z) :
  - len l <= i < len l -> exists a, index l i = Ok a.
Proof.
  unfold index, len. intros Hi.
  destruct (Z.ltb_spec i 0).
  - destruct (Z.ltb_spec (i + Z.of_nat (length l)) 0); [lia|].
    destruct (Z.leb_spec (Z.of_nat (length l)) (i + Z.of_nat (length l))); [lia|]. simpl.
    destruct (lookup_lt_is_Some_2 l (Z.to_nat (i + Z.of_nat (length l)))) as [a Ha]; [lia|].
    rewrite Ha. eauto.
  - destruct (Z.ltb_spec i 0); [lia|].
    destruct (Z.leb_spec (Z.of_nat (length l)) i); [lia|]. simpl.
    destruct (lookup_lt_is_Some_2 l (Z.to_nat i)) as [a Ha]; [lia|].
    rewrite Ha. eauto.
Qed.

Lemma index_out_of_range {A} (l : list A) (i : Z) :
  i < - len l \/ len l <= i -> index l i = Raise IndexError.
Proof.
  unfold index, len. intros Hi.
  destruct (Z.ltb_spec i 0).
  - destruct (Z.ltb_spec (i + Z.of_nat (length l)) 0); [reflexivity|lia].
  - destruct (Z.ltb_spec i 0); [lia|].
    destruct (Z.leb_spec (Z.of_nat (length l)) i); [reflexivity|lia].
Qed.

End Batches.

(** X2: whatever the batch, it splits in one way into a part that is
    processed to its end and the rest, which is empty or starts with a
    detection that raises.  [add_objects] keeps the detections that were
    there, in place, and appends after them, in the order of the batch,
    every detection of the first part that the loop body accepted, and
    nothing else.  With an empty rest it then calls [notify_all], last,
    unless the batch was empty; otherwise it ends with the exception of
    the detection that raised, without a signal. *)
Theorem add_objects_keeps_and_signals
  (regions : list region) (mask : mask_t) (detected_objects : list detected_object)
  (objs : list raw_object) :
  exists done rest,
    objs = done ++ rest
    /\ processed regions mask done = true
    /\ match rest with
       | [] =>
           add_objects regions mask detected_objects objs =
             {| detected := detected_objects ++ survivors regions mask done;
                events := map Appended (survivors regions mask done)
                          ++ match objs with [] => [] | _ :: _ => [NotifyAll] end;
                raised := None |}
       | bad :: _ =>
           exists e,
             process_object regions mask bad = Raise e
             /\ add_objects regions mask detected_objects objs =
                  {| detected := detected_objects ++ survivors regions mask done;
                     events := map Appended (survivors regions mask done);
                     raised := Some e |}
       end.
Proof.
  destruct (batch_split regions mask objs) as (done & rest & Hsplit & Hdone & Hrest).
  exists done, rest. split; [exact Hsplit|]. split; [exact Hdone|].
  destruct rest as [|bad rest].
  - rewrite app_nil_r in Hsplit. subst done.
    destruct objs as [|obj objs]; [simpl; rewrite app_nil_r; reflexivity|].
    change (add_objects regions mask detected_objects (obj :: objs))
      with (add_loop regions mask (obj :: objs) detected_objects []).
    rewrite (add_loop_all_ok _ _ _ _ _ Hdone). reflexivity.
  - destruct Hrest as [e He]. exists e. split; [exact He|].
    assert (Heq : add_objects regions mask detected_objects objs
                  = add_loop regions mask objs detected_objects [])
      by (subst objs; destruct done; reflexivity).
    rewrite Heq, Hsplit, (add_loop_app _ _ _ _ _ _ Hdone). simpl. rewrite He. reflexivity.
Qed.

(** X3: when a detection of the batch raises, [add_objects] ends there
    with that exception: the survivors of the detections before it stay
    appended, the detections after it are not looked at, and
    [objects_parsed] is not notified. *)
Theorem add_objects_stops_at_exception
  (regions : list region) (mask : mask_t) (detected_objects : list detected_object)
  (before after : list raw_object) (bad : raw_object) (e : exn) :
  processed regions mask before = true ->
  process_object regions mask bad = Raise e ->
  add_objects regions mask detected_objects (before ++ bad :: after)
  = {| detected := detected_objects ++ survivors regions mask before;
       events := map Appended (survivors regions mask before);
       raised := Some e |}.
Proof.
  intros Hbefore Hbad.
  assert (Heq : add_objects regions mask detected_objects (before ++ bad :: after)
                = add_loop regions mask (before ++ bad :: after) detected_objects [])
    by (destruct before; reflexivity).
  rewrite Heq, (add_loop_app _ _ _ _ _ _ Hbefore). simpl. rewrite Hbad. reflexivity.
Qed.

Lemma add_objects_stops_at_exception_witness :
  add_objects [example_region ∅] (uniform_mask 200 200 255) []
    ([example_object (literal 9 10)]
     ++ {| region_id := 1; box := box (example_object (literal 9 10));
           name := "person"; score := literal 9 10 |}
     :: [example_object (literal 3 10)])
  = {| detected := [] ++ survivors [example_region ∅] (uniform_mask 200 200 255)
                          [example_object (literal 9 10)];
       events := map Appended (survivors [example_region ∅] (uniform_mask 200 200 255)
                                 [example_object (literal 9 10)]);
       raised := Some IndexError |}.
Proof.
  apply (add_objects_stops_at_exception [example_region ∅] (uniform_mask 200 200 255) []
           [example_object (literal 9 10)] [example_object (literal 3 10)]).
  - vm_compute. reflexivity.
  - vm_compute. reflexivity.
Defined.

(** X4: a detection whose [region_id] is outside [-len(regions),
    len(regions))] raises [IndexError] before anything is computed for
    it. *)
Theorem unknown_region_raises
  (regions : list region) (mask : mask_t) (obj : raw_object) :
  region_id obj < - len regions \/ len regions <= region_id obj ->
  process_object regions mask obj = Raise IndexError.
Proof.
  intros H. unfold process_object. rewrite (index_out_of_range _ _ H). reflexivity.
Qed.

Lemma unknown_region_raises_witness :
  process_object [example_region ∅] (uniform_mask 200 200 255)
    {| region_id := 1; box := box (example_object (literal 9 10));
       name := "person"; score := literal 9 10 |}
  = Raise IndexError.
Proof.
  apply unknown_region_raises. right. vm_compute. discriminate.
Defined.

(** X5: a detection with a box coordinate that is a NaN or an infinity is
    never appended and never silently dropped: processing it raises. *)
Theorem box_not_finite_raises
  (regions : list region) (mask : mask_t) (obj : raw_object) :
  is_finite_float (box obj).1.1.1 && is_finite_float (box obj).1.1.2
  && is_finite_float (box obj).1.2 && is_finite_float (box obj).2 = false ->
  is_ok (process_object regions mask obj) = false.
Proof.
  intros H. unfold process_object.
  destruct (index regions (region_id obj)) as [r|]; [simpl|reflexivity].
  unfold locate. destruct (box obj) as [[[b0 b1] b2] b3]. simpl in H.
  pose proof (scale_not_finite b0 (size r) (x_offset r)) as H0.
  pose proof (scale_not_finite b1 (size r) (y_offset r)) as H1.
  pose proof (scale_not_finite b2 (size r) (x_offset r)) as H2.
  pose proof (scale_not_finite b3 (size r) (y_offset r)) as H3.
  destruct (scale b0 _ _); [simpl|reflexivity].
  destruct (scale b1 _ _); [simpl|reflexivity].
  destruct (scale b2 _ _); [simpl|reflexivity].
  destruct (scale b3 _ _); [simpl|reflexivity].
  destruct (is_finite_float b0); [|discriminate (H0 eq_refl)].
  destruct (is_finite_float b1); [|discriminate (H1 eq_refl)].
  destruct (is_finite_float b2); [|discriminate (H2 eq_refl)].
  destruct (is_finite_float b3); [discriminate H|discriminate (H3 eq_refl)].
Qed.

Lemma box_not_finite_raises_witness :
  is_ok (process_object [example_region ∅] (uniform_mask 200 200 255)
           {| region_id := 0;
              box := (literal 1 10, literal 2 10, S754_nan, literal 6 10);
              name := "person"; score := literal 9 10 |}) = false.
Proof.
  apply box_not_finite_raises. vm_compute. reflexivity.
Defined.

(** X6: two batches handed over one after the other leave the same
    [detected_objects], and end with the same exception if any, as the one
    batch made of both, when the first is processed to its end. *)
Theorem add_objects_in_two_batches
  (regions : list region) (mask : mask_t) (detected_objects : list detected_object)
  (first second : list raw_object) :
  processed regions mask first = true ->
  detected (add_objects regions mask
              (detected (add_objects regions mask detected_objects first)) second)
  = detected (add_objects regions mask detected_objects (first ++ second))
  /\ raised (add_objects regions mask
               (detected (add_objects regions mask detected_objects first)) second)
     = raised (add_objects regions mask detected_objects (first ++ second)).
Proof.
  intros Hfirst.
  destruct (add_objects_loop regions mask detected_objects (first ++ second)) as [-> ->].
  destruct (add_objects_loop regions mask detected_objects first) as [-> _].
  rewrite (add_loop_app _ _ _ _ _ _ Hfirst).
  rewrite (add_loop_all_ok _ _ _ _ _ Hfirst). simpl.
  destruct (add_objects_loop regions mask
              (detected_objects ++ survivors regions mask first) second) as [-> ->].
  apply add_loop_events_irrelevant.
Qed.

Lemma add_objects_in_two_batches_witness :
  detected (add_objects [example_region (only_threshold 5 10)] (uniform_mask 200 200 255)
              (detected (add_objects [example_region (only_threshold 5 10)]
                           (uniform_mask 200 200 255) []
                           [example_object (literal 9 10)]))
              [example_object (literal 3 10); example_object (literal 9 10)])
  = detected (add_objects [example_region (only_threshold 5 10)] (uniform_mask 200 200 255)
                [] ([example_object (literal 9 10)]
                    ++ [example_object (literal 3 10); example_object (literal 9 10)])).
Proof.
  refine (proj1 (add_objects_in_two_batches
    [example_region (only_threshold 5 10)] (uniform_mask 200 200 255) []
    [example_object (literal 9 10)]
    [example_object (literal 3 10); example_object (literal 9 10)] _)).
  vm_compute. reflexivity.
Defined.

(** X7: on a mask of [h] rows of [w] pixels the clamping guards the upper
    bounds only.  The representative point is read without an exception
    when the bottom edge is at least [-h] and the clamped midpoint at
    least [-w] (negative indices count from the far side); below that,
    reading it raises [IndexError]. *)
Theorem mask_lookup_bounds (mask : mask_t) (d : detected_object) (w x : Z) :
  0 < len mask -> 0 < w -> rows_of_width w mask = true ->
  x_location mask d = Ok x ->
  x <= w - 1
  /\ (- len mask <= ymax d -> - w <= x -> exists v, mask_value mask d = Ok v)
  /\ (ymax d < - len mask \/ x < - w -> mask_value mask d = Raise IndexError).
Proof.
  intros Hh Hw Hrows Hx.
  assert (Hrow : forall row, row ∈ mask -> len row = w).
  { intros row Hin. unfold rows_of_width in Hrows.
    rewrite forallb_forall in Hrows. apply Z.eqb_eq, Hrows.
    apply list_elem_of_In. exact Hin. }
  assert (Hxw : x <= w - 1).
  { unfold x_location in Hx.
    destruct (float_of_int _); [simpl in Hx|discriminate].
    destruct (int_of_float _); [simpl in Hx|discriminate].
    destruct (index mask 0) as [row0|] eqn:E0; [simpl in Hx|discriminate].
    injection Hx as <-. rewrite (Hrow row0 (index_elem _ _ _ E0)). lia. }
  split; [exact Hxw|]. unfold mask_value. rewrite Hx. simpl. unfold y_location.
  split.
  - intros Hy Hxl.
    destruct (index_ok mask (Z.min (ymax d) (len mask - 1))) as [row Erow]; [lia|].
    rewrite Erow. simpl. apply index_ok.
    rewrite (Hrow row (index_elem _ _ _ Erow)). lia.
  - intros Hout.
    destruct (Z.lt_ge_cases (ymax d) (- len mask)) as [Hy|Hy].
    + rewrite index_out_of_range by lia. reflexivity.
    + destruct Hout as [Hout|Hout]; [lia|].
      destruct (index_ok mask (Z.min (ymax d) (len mask - 1))) as [row Erow]; [lia|].
      rewrite Erow. simpl. apply index_out_of_range.
      rewrite (Hrow row (index_elem _ _ _ Erow)). lia.
Qed.

Lemma mask_lookup_bounds_witness :
  exists v, mask_value (uniform_mask 200 200 255) (example_detected (literal 9 10)) = Ok v.
Proof.
  refine (proj1 (proj2 (mask_lookup_bounds (uniform_mask 200 200 255)
    (example_detected (literal 9 10)) 200 80 _ _ _ _)) _ _).
  - vm_compute. reflexivity.
  - lia.
  - vm_compute. reflexivity.
  - vm_compute. reflexivity.
  - vm_compute. discriminate.
  - lia.
Defined.

(* ===================================================================== *)
(** * More on the capture loop: the stride, the end of the loop *)
(* ===================================================================== *)

Section Stride.

Import CameraCapture.

Implicit Types (cfg : config) (st : state) (i : io) (ios : list io).



Lemma multiples_step (f k : Z) :
  0 < k ->
  (f + 1) / k = f / k + (if (f + 1) mod k =? 0 then 1 else 0).
Proof.
  intros Hk.
  pose proof (Z.div_mod f k ltac:(lia)) as Hf.
  pose proof (Z.mod_pos_bound f k Hk) as Hr.
  pose proof (Z.div_mod (f + 1) k ltac:(lia)) as Hf1.
  pose proof (Z.mod_pos_bound (f + 1) k Hk) as Hr1.
  destruct (Z.eqb_spec ((f + 1) mod k) 0) as [Hz|Hz]; nia.
Qed.



(** One iteration, whatever it reads: it goes on having counted the
    frame, signalling if the number is a multiple of the stride; it leaves
    by [break] with a log line and nothing counted; or it dies on a
    multiple of the stride, the frame counted and nothing signalled. *)
Lemma step_stride cfg st i :
  0 < take_frame cfg ->
  match (step cfg st i).1.1 with
  | Continue =>
      frame_num (step cfg st i).1.2 = frame_num st + 1
      /\ (step cfg st i).2
         = replicate (Z.to_nat ((frame_num st + 1) / take_frame cfg
                                - frame_num st / take_frame cfg)) FrameReady
  | Exited => (step cfg st i).1.2 = st /\ exists msg, (step cfg st i).2 = [Printed msg]
  | Died _ =>
      frame_num (step cfg st i).1.2 = frame_num st + 1
      /\ (frame_num st + 1) mod take_frame cfg = 0
      /\ (step cfg st i).2 = []
  end.
Proof.
  intros Hk. unfold step.
  pose proof (multiples_step (frame_num st) (take_frame cfg) Hk) as Hm.
  destruct (poll i); [simpl; eauto|].
  destruct (len (raw_image i) =? 0); [simpl; eauto|].
  destruct (Z.eqb_spec (take_frame cfg) 0); [lia|].
  destruct (Z.eqb_spec ((frame_num st + 1) mod take_frame cfg) 0) as [Hz|Hz]; simpl.
  - destruct (reshape (raw_image i) (frame_shape cfg)); simpl.
    + split; [reflexivity|]. rewrite Hm.
      replace (frame_num st / take_frame cfg + 1 - frame_num st / take_frame cfg)
        with 1 by lia. reflexivity.
    + auto.
  - split; [reflexivity|]. rewrite Hm, Z.add_0_r, Z.sub_diag. reflexivity.
Qed.

End Stride.



(** X9: with [take_frame] 0 the first read that returns any byte ends the
    capture thread by [ZeroDivisionError]: the frame is counted, the frame
    buffer is not touched and nothing is signalled. *)
Theorem zero_stride_dies
  (cfg : CameraCapture.config) (st : CameraCapture.state) (i : CameraCapture.io)
  (rest : list CameraCapture.io) :
  CameraCapture.take_frame cfg = 0 ->
  CameraCapture.poll i = None ->
  0 < len (CameraCapture.raw_image i) ->
  CameraCapture.run cfg st (i :: rest)
  = (CameraCapture.Died ZeroDivisionError,
     {| CameraCapture.frame_num := CameraCapture.frame_num st + 1;
        CameraCapture.buffer := CameraCapture.buffer st |},
     []).
Proof.
  intros Hk Hpoll Hlen. rewrite run_cons. unfold CameraCapture.step.
  rewrite Hpoll, Hk.
  destruct (Z.eqb_spec (len (CameraCapture.raw_image i)) 0); [lia|]. reflexivity.
Qed.

Lemma zero_stride_dies_witness :
  CameraCapture.run
    {| CameraCapture.take_frame := 0; CameraCapture.frame_shape := (1, 1, 2) |}
    (CameraCapture.start (SharedFrame.zeros (1, 1, 2)))
    [ {| CameraCapture.poll := None; CameraCapture.raw_image := [Byte.x01; Byte.x02];
         CameraCapture.clock := round_int 100 |} ]
  = (CameraCapture.Died ZeroDivisionError,
     {| CameraCapture.frame_num := 0 + 1;
        CameraCapture.buffer := SharedFrame.zeros (1, 1, 2) |},
     []).
Proof.
  apply (zero_stride_dies
    {| CameraCapture.take_frame := 0; CameraCapture.frame_shape := (1, 1, 2) |}
    (CameraCapture.start (SharedFrame.zeros (1, 1, 2)))).
  - reflexivity.
  - reflexivity.
  - vm_compute. reflexivity.
Defined.

(** X10: whatever the reads (whole, short or empty, the decoder running
    or not), with a stride [take_frame > 0] the capture loop signals
    [frame_ready] once for every multiple of [take_frame] that the frame
    counter passes, except the multiple on which a failed reshape ends the
    thread, and does nothing else but print one log line as its last
    effect when it leaves by [break].  The counter grows by one for every
    read that is counted; while the loop goes on every input was
    counted. *)
Theorem signals_follow_the_stride
  (cfg : CameraCapture.config) (ios : list CameraCapture.io) (st : CameraCapture.state) :
  0 < CameraCapture.take_frame cfg ->
  CameraCapture.frame_num st
    <= CameraCapture.frame_num (CameraCapture.run cfg st ios).1.2
    <= CameraCapture.frame_num st + len ios
  /\ match (CameraCapture.run cfg st ios).1.1 with
     | CameraCapture.Continue =>
         CameraCapture.frame_num (CameraCapture.run cfg st ios).1.2
         = CameraCapture.frame_num st + len ios
         /\ (CameraCapture.run cfg st ios).2
            = replicate
                (Z.to_nat
                   (CameraCapture.frame_num (CameraCapture.run cfg st ios).1.2
                      / CameraCapture.take_frame cfg
                    - CameraCapture.frame_num st / CameraCapture.take_frame cfg))
                CameraCapture.FrameReady
     | CameraCapture.Exited =>
         exists msg,
           (CameraCapture.run cfg st ios).2
           = replicate
               (Z.to_nat
                  (CameraCapture.frame_num (CameraCapture.run cfg st ios).1.2
                     / CameraCapture.take_frame cfg
                   - CameraCapture.frame_num st / CameraCapture.take_frame cfg))
               CameraCapture.FrameReady
             ++ [CameraCapture.Printed msg]
     | CameraCapture.Died _ =>
         CameraCapture.frame_num st
           < CameraCapture.frame_num (CameraCapture.run cfg st ios).1.2
         /\ CameraCapture.frame_num (CameraCapture.run cfg st ios).1.2
              mod CameraCapture.take_frame cfg = 0
         /\ (CameraCapture.run cfg st ios).2
            = replicate
                (Z.to_nat
                   (CameraCapture.frame_num (CameraCapture.run cfg st ios).1.2
                      / CameraCapture.take_frame cfg
                    - CameraCapture.frame_num st / CameraCapture.take_frame cfg - 1))
                CameraCapture.FrameReady
     end.
Proof.
  intros Hk. revert st. unfold len.
  induction ios as [|i ios IH]; intros st.
  - simpl. rewrite Z.sub_diag. split; [lia|]. split; [lia|reflexivity].
  - rewrite run_cons. pose proof (step_stride cfg st i Hk) as Hstep.
    destruct (CameraCapture.step cfg st i) as [[s st1] out1]. simpl in Hstep.
    replace (Z.of_nat (length (i :: ios))) with (1 + Z.of_nat (length ios))
      by (simpl length; lia).
    pose proof (multiples_step (CameraCapture.frame_num st) (CameraCapture.take_frame cfg) Hk)
      as Hm.
    destruct s.
    + destruct Hstep as [Hn1 ->]. specialize (IH st1).
      destruct (CameraCapture.run cfg st1 ios) as [[s' st2] out2]. simpl in IH |- *.
      destruct IH as [Hb IH]. rewrite Hn1 in Hb, IH. split; [lia|].
      pose proof (Z.div_le_mono _ _ (CameraCapture.take_frame cfg) Hk (proj1 Hb)) as Hd.
      assert (Hstepd : CameraCapture.frame_num st / CameraCapture.take_frame cfg
                       <= (CameraCapture.frame_num st + 1) / CameraCapture.take_frame cfg)
        by (destruct (_ =? 0) in Hm; lia).
      destruct s'.
      * destruct IH as [Hn2 ->]. split; [lia|].
        rewrite <- replicate_add. f_equal. lia.
      * destruct IH as [msg ->]. exists msg.
        rewrite app_assoc, <- replicate_add. do 2 f_equal. lia.
      * destruct IH as (Hlt & Hmod & ->). split; [lia|]. split; [exact Hmod|].
        rewrite <- replicate_add. f_equal.
        assert ((CameraCapture.frame_num st + 1) / CameraCapture.take_frame cfg
                < CameraCapture.frame_num st2 / CameraCapture.take_frame cfg).
        { apply Z.div_lt_upper_bound; [exact Hk|].
          pose proof (Z.div_mod (CameraCapture.frame_num st2) (CameraCapture.take_frame cfg)
                        ltac:(lia)). lia. }
        lia.
    + destruct Hstep as [-> [msg ->]]. simpl. rewrite Z.sub_diag.
      split; [lia|]. exists msg. reflexivity.
    + destruct Hstep as (Hn1 & Hmod & ->). simpl. rewrite Hn1.
      split; [lia|]. split; [lia|]. split; [exact Hmod|].
      rewrite Hmod in Hm. simpl in Hm. rewrite Hm.
      replace (CameraCapture.frame_num st / CameraCapture.take_frame cfg + 1
               - CameraCapture.frame_num st / CameraCapture.take_frame cfg - 1)
        with 0 by lia.
      reflexivity.
Qed.

Lemma signals_follow_the_stride_witness :
  exists msg,
    (CameraCapture.run
       {| CameraCapture.take_frame := 2; CameraCapture.frame_shape := (1, 1, 2) |}
       (CameraCapture.start (SharedFrame.zeros (1, 1, 2)))
       [ {| CameraCapture.poll := None; CameraCapture.raw_image := [Byte.x01];
            CameraCapture.clock := round_int 100 |};
         {| CameraCapture.poll := None; CameraCapture.raw_image := [Byte.x03; Byte.x04];
            CameraCapture.clock := round_int 101 |};
         {| CameraCapture.poll := None; CameraCapture.raw_image := [];
            CameraCapture.clock := round_int 102 |} ]).2
    = replicate (Z.to_nat (2 / 2 - 0 / 2)) CameraCapture.FrameReady
      ++ [CameraCapture.Printed msg].
Proof.
  exact (proj2 (signals_follow_the_stride
    {| CameraCapture.take_frame := 2; CameraCapture.frame_shape := (1, 1, 2) |}
    [ {| CameraCapture.poll := None; CameraCapture.raw_image := [Byte.x01];
         CameraCapture.clock := round_int 100 |};
      {| CameraCapture.poll := None; CameraCapture.raw_image := [Byte.x03; Byte.x04];
         CameraCapture.clock := round_int 101 |};
      {| CameraCapture.poll := None; CameraCapture.raw_image := [];
         CameraCapture.clock := round_int 102 |} ]
    (CameraCapture.start (SharedFrame.zeros (1, 1, 2)))
    ltac:(simpl; lia))).
Defined.

(* ===================================================================== *)
(** * The sign of a difference of times *)
(* ===================================================================== *)

Section Differences.

Lemma digits2_bounds (m : positive) :
  2 ^ (Z.pos (digits2_pos m) - 1) <= Z.pos m < 2 ^ Z.pos (digits2_pos m).
Proof.
  induction m as [p IH|p IH|]; simpl digits2_pos.
  - rewrite Pos2Z.inj_succ, Z.pow_succ_r by lia.
    replace (Z.succ (Z.pos (digits2_pos p)) - 1) with (Z.succ (Z.pos (digits2_pos p) - 1))
      by lia.
    rewrite Z.pow_succ_r by lia. lia.
  - rewrite Pos2Z.inj_succ, Z.pow_succ_r by lia.
    replace (Z.succ (Z.pos (digits2_pos p)) - 1) with (Z.succ (Z.pos (digits2_pos p) - 1))
      by lia.
    rewrite Z.pow_succ_r by lia. lia.
  - simpl. lia.
Qed.

(** A valid finite double: the exponent is at least -1074, the mantissa
    has at most 53 bits, and exactly 53 above the least exponent. *)
Lemma valid_finite (s : bool) (m : positive) (e : Z) :
  valid_float (S754_finite s m e) = true ->
  -1074 <= e /\ Z.pos (digits2_pos m) <= 53
  /\ (-1074 < e -> Z.pos (digits2_pos m) = 53).
Proof.
  unfold valid_float, valid_binary, bounded, canonical_mantissa, fexp, emin, prec, emax.
  intros H. apply andb_true_iff in H as [H _]. apply Z.eqb_eq in H. lia.
Qed.

Lemma shl_align_value (m : positive) (e e' : Z) :
  e' <= e -> Z.pos (shl_align m e e').1 = Z.pos m * 2 ^ (e - e').
Proof.
  intros He. unfold shl_align.
  destruct (e' - e) as [|d|d] eqn:Ed; simpl.
  - replace (e - e') with 0 by lia. lia.
  - lia.
  - change (Pos.iter xO m d) with (shift_pos d m).
    rewrite shift_pos_correct, Z.pow_pos_fold.
    replace (e - e') with (Z.pos d) by lia. lia.
Qed.

(** Of two valid doubles of the same sign, the one that compares lower
    in exponent, then mantissa, has the lower aligned mantissa. *)
Lemma aligned_le (s s' : bool) (m m' : positive) (e e' : Z) :
  valid_float (S754_finite s m e) = true ->
  valid_float (S754_finite s' m' e') = true ->
  e < e' \/ (e = e' /\ (m <= m')%positive) ->
  Z.pos (shl_align m e (Z.min e e')).1 <= Z.pos (shl_align m' e' (Z.min e e')).1.
Proof.
  intros Hv Hv' Hle.
  rewrite !shl_align_value by lia.
  destruct Hle as [Hlt|[-> Hm]].
  - apply valid_finite in Hv as (Hmin & Hd & _).
    apply valid_finite in Hv' as (_ & _ & Hd'). specialize (Hd' ltac:(lia)).
    pose proof (digits2_bounds m) as Hb. pose proof (digits2_bounds m') as Hb'.
    rewrite Hd' in Hb'. rewrite Z.min_l by lia.
    replace (e - e) with 0 by lia. rewrite Z.pow_0_r, Z.mul_1_r.
    assert (Hp : 2 ^ 1 <= 2 ^ (e' - e)) by (apply Z.pow_le_mono_r; lia).
    assert (Hm53 : 2 ^ Z.pos (digits2_pos m) <= 2 ^ 53) by (apply Z.pow_le_mono_r; lia).
    change (2 ^ 1) with 2 in Hp. change (2 ^ (53 - 1)) with 4503599627370496 in Hb'.
    change (2 ^ 53) with 9007199254740992 in Hm53. nia.
  - rewrite Z.min_id. replace (e' - e') with 0 by lia. rewrite Z.pow_0_r. lia.
Qed.

(** Rounding a number that is not above zero gives none above zero. *)
Lemma normalize_not_positive (m e : Z) :
  m <= 0 -> is_positive (binary_normalize prec emax m e false) = false.
Proof.
  intros Hm. destruct m as [|p|p]; [reflexivity|lia|].
  unfold binary_normalize, binary_round, binary_round_aux.
  destruct (shl_align _ _ _) as [mz ez].
  destruct (shr_fexp _ _ _ _ _) as [mrs' e''].
  destruct (shr_fexp _ _ _ _ _) as [mrs'' e'''].
  destruct (shr_m mrs''); [reflexivity| |reflexivity].
  destruct (_ <=? _); reflexivity.
Qed.

Lemma compare_cont_le (m m' : positive) :
  Pos.compare_cont Eq m m' <> Gt -> (m <= m')%positive.
Proof. intros H. exact H. Qed.

Lemma compare_cont_ge (m m' : positive) :
  Pos.compare_cont Eq m m' <> Lt -> (m' <= m)%positive.
Proof.
  intros H. apply Pos.ge_le. exact H.
Qed.

(** The difference of two valid doubles, the first not above the second,
    is not above zero. *)
Lemma fsub_not_positive (x y : spec_float) :
  valid_float x = true -> valid_float y = true -> SFleb x y = true ->
  is_positive (fsub x y) = false.
Proof.
  intros Hx Hy Hle. unfold fsub.
  destruct x as [sx|sx| |sx mx ex], y as [sy|sy| |sy my ey];
    try discriminate; try (destruct sx, sy; try discriminate; reflexivity).
  unfold SFsub. apply normalize_not_positive.
  unfold SFleb, SFcompare in Hle.
  destruct sx, sy; simpl cond_Zopp.
  - (* both below zero *)
      assert (Hord : ey < ex \/ (ey = ex /\ (my <= mx)%positive)).
      { destruct (Z.compare_spec ex ey) as [->| |]; [|discriminate|left; lia].
        right. split; [reflexivity|]. apply compare_cont_ge.
        destruct (Pos.compare_cont Eq mx my); try discriminate; discriminate. }
    pose proof (aligned_le _ _ _ _ _ _ Hy Hx Hord) as H.
    rewrite Z.min_comm in H. lia.
  - lia.
  - discriminate.
  - assert (Hord : ex < ey \/ (ex = ey /\ (mx <= my)%positive)).
    { destruct (Z.compare_spec ex ey) as [->| |]; [|left; lia|discriminate].
      right. split; [reflexivity|]. apply compare_cont_le.
      destruct (Pos.compare_cont Eq mx my); try discriminate; discriminate. }
    pose proof (aligned_le _ _ _ _ _ _ Hx Hy Hord) as H. lia.
Qed.

(** A double that is not above zero is not above an integer that is not
    below zero, nor above a double above zero. *)
Lemma not_positive_not_above (r : spec_float) (n : Z) :
  is_positive r = false -> 0 <= n -> num_gt (Float r) (Int n) = false.
Proof.
  intros Hr Hn. unfold num_gt, num_compare, int_float_compare.
  destruct r as [s|s| |s m e]; simpl; try reflexivity.
  - destruct (Z.compare_spec n 0); try reflexivity. lia.
  - destruct s; [reflexivity|discriminate].
  - destruct s; [|discriminate]. simpl.
    destruct (0 <=? e).
    + assert (0 < 2 ^ e \/ 2 ^ e = 0) as [Hp|Hp]
        by (pose proof (Z.pow_nonneg 2 e ltac:(lia)); lia).
      * destruct (Z.compare_spec n (- Z.pos m * 2 ^ e)); simpl; try reflexivity; nia.
      * rewrite Hp, Z.mul_0_r. destruct (Z.compare_spec n 0); simpl; try reflexivity. lia.
    + pose proof (Z.pow_nonneg 2 (- e) ltac:(lia)).
      destruct (Z.compare_spec (n * 2 ^ (- e)) (- Z.pos m)); simpl; try reflexivity; nia.
Qed.

Lemma not_positive_not_above_float (r f : spec_float) :
  is_positive r = false -> is_positive f = true -> num_gt (Float r) (Float f) = false.
Proof.
  intros Hr Hf. unfold num_gt, num_compare, SFcompare.
  destruct r as [s|s| |s m e], f as [s'|s'| |s' m' e']; try discriminate;
    try reflexivity; destruct s, s'; try discriminate; reflexivity.
Qed.

End Differences.

(* ===================================================================== *)
(** * Properties of the watchdog and of the restarts *)
(* ===================================================================== *)

Section Restarts.

Import Supervisor.

Implicit Types (f : ffmpeg) (h : handles) (e : env) (t : tick).

Lemma orderly_app (p th : bool) (a b : list effect) :
  orderly p th (a ++ b) =
    match orderly p th a with
    | Some (p', th') => orderly p' th' b
    | None => None
    end.
Proof.
  revert p th. induction a as [|x a IH]; intros p th; [reflexivity|].
  destruct x; simpl; try apply IH; destruct p, th; simpl; try reflexivity; apply IH.
Qed.

(** One call from handles that agree: they agree afterwards, the only
    exception is the one of [Popen], and the trace is orderly. *)
Lemma restart_orderly f h e :
  in_step h = true ->
  in_step (handles_after (start_or_restart_capture f h e)) = true
  /\ raised (start_or_restart_capture f h e) <> Some AttributeError
  /\ orderly (process_runs h) (thread_runs h) (effects (start_or_restart_capture f h e))
     = Some (process_runs (handles_after (start_or_restart_capture f h e)), thread_runs (handles_after (start_or_restart_capture f h e))).
Proof.
  unfold in_step, start_or_restart_capture, stop_existing, start_new, process_runs,
    thread_runs.
  destruct h as [[pid|] [th|]]; simpl; try discriminate; intros _;
    destruct (timed_out e), (spawned e); simpl; repeat split; discriminate.
Qed.

Lemma restarts_orderly f envs : forall h,
  in_step h = true ->
  in_step (handles_after (restarts f h envs)) = true
  /\ raised (restarts f h envs) <> Some AttributeError
  /\ orderly (process_runs h) (thread_runs h) (effects (restarts f h envs))
     = Some (process_runs (handles_after (restarts f h envs)), thread_runs (handles_after (restarts f h envs))).
Proof.
  induction envs as [|e envs IH]; intros h Hh; simpl.
  - split; [exact Hh|]. split; [discriminate|]. reflexivity.
  - destruct (restart_orderly f h e Hh) as (H1 & H2 & H3).
    destruct (raised (start_or_restart_capture f h e)) eqn:Er;
      [rewrite <- Er in H2; split; [exact H1|]; split; [exact H2|exact H3]|].
    destruct (IH _ H1) as (H4 & H5 & H6). simpl.
    split; [exact H4|]. split; [exact H5|].
    rewrite orderly_app, H3. exact H6.
Qed.

Lemma watch_orderly f h t :
  in_step h = true ->
  in_step (handles_after (watch f h t)) = true
  /\ raised (watch f h t) <> Some AttributeError
  /\ orderly (process_runs h) (thread_runs h) (effects (watch f h t))
     = Some (process_runs (handles_after (watch f h t)), thread_runs (handles_after (watch f h t))).
Proof.
  intros Hh. unfold watch. destruct (stale (now t) (seen t)); simpl.
  - destruct (restart_orderly f h (restart_env t) Hh) as (H1 & H2 & H3).
    split; [exact H1|]. split; [exact H2|].
    rewrite orderly_app, H3.
    destruct (raised _); reflexivity.
  - split; [exact Hh|]. split; [discriminate|]. reflexivity.
Qed.

Lemma watchdog_orderly f ticks : forall h,
  in_step h = true ->
  in_step (handles_after (watchdog f h ticks)) = true
  /\ raised (watchdog f h ticks) <> Some AttributeError
  /\ orderly (process_runs h) (thread_runs h) (effects (watchdog f h ticks))
     = Some (process_runs (handles_after (watchdog f h ticks)), thread_runs (handles_after (watchdog f h ticks))).
Proof.
  induction ticks as [|t ticks IH]; intros h Hh; simpl.
  - split; [exact Hh|]. split; [discriminate|]. reflexivity.
  - destruct (watch_orderly f h t Hh) as (H1 & H2 & H3).
    destruct (raised (watch f h t)) eqn:Er;
      [rewrite <- Er in H2; split; [exact H1|]; split; [exact H2|exact H3]|].
    destruct (IH _ H1) as (H4 & H5 & H6). simpl.
    split; [exact H4|]. split; [exact H5|].
    rewrite orderly_app, H3. exact H6.
Qed.

(** Before the first frame the difference is the clock itself. *)
Lemma stale_before_first_frame (clock : spec_float) (s : bool) :
  stale clock (S754_zero s) = num_gt (Float clock) (Int 300).
Proof. unfold stale, fsub. destruct clock as [[]|[]| |[] m e], s; reflexivity. Qed.

End Restarts.

Lemma orderly_prep_threads (p th : bool) (indices : list nat) :
  Supervisor.orderly p th
    (map Supervisor.StartPrepThread indices ++ [Supervisor.StartWatchdog])
  = Some (p, th).
Proof. induction indices as [|i indices IH]; [reflexivity|exact IH]. Qed.

(** X11: however often [start_or_restart_capture] is called on a new
    camera, and whether the graceful waits time out or [Popen] fails, the
    calls never find a process without its thread ([AttributeError]), and
    their trace is orderly: a decoder is spawned only when the previous
    one has been waited for, a capture thread is started only when the
    previous one has been joined, and a thread is joined only after its
    decoder has ended. *)
Theorem restarts_are_orderly (f : Supervisor.ffmpeg) (envs : list Supervisor.env) :
  Supervisor.in_step (Supervisor.handles_after (Supervisor.restarts f Supervisor.init envs))
  = true
  /\ Supervisor.raised (Supervisor.restarts f Supervisor.init envs)
     <> Some Supervisor.AttributeError
  /\ Supervisor.orderly false false
       (Supervisor.effects (Supervisor.restarts f Supervisor.init envs))
     = Some (Supervisor.process_runs
               (Supervisor.handles_after (Supervisor.restarts f Supervisor.init envs)),
             Supervisor.thread_runs
               (Supervisor.handles_after (Supervisor.restarts f Supervisor.init envs))).
Proof. apply (restarts_orderly f envs Supervisor.init). reflexivity. Qed.

(** X12: after a [Camera.start] that succeeded, the watchdog loop, over
    any clock readings and frame times, keeps the same order as it
    restarts the capture: from the start of the camera on, never two
    decoders and never two capture threads at once, and no
    [AttributeError]. *)
Theorem watchdog_is_orderly
  (f : Supervisor.ffmpeg) (regions : nat) (e : Supervisor.env)
  (ticks : list Supervisor.tick) :
  Supervisor.raised (Supervisor.start f regions Supervisor.init e) = None ->
  Supervisor.raised
    (Supervisor.watchdog f
       (Supervisor.handles_after (Supervisor.start f regions Supervisor.init e)) ticks)
  <> Some Supervisor.AttributeError
  /\ Supervisor.orderly false false
       (Supervisor.effects (Supervisor.start f regions Supervisor.init e)
        ++ Supervisor.effects
             (Supervisor.watchdog f
                (Supervisor.handles_after (Supervisor.start f regions Supervisor.init e))
                ticks))
     = Some (Supervisor.process_runs
               (Supervisor.handles_after
                  (Supervisor.watchdog f
                     (Supervisor.handles_after
                        (Supervisor.start f regions Supervisor.init e)) ticks)),
             Supervisor.thread_runs
               (Supervisor.handles_after
                  (Supervisor.watchdog f
                     (Supervisor.handles_after
                        (Supervisor.start f regions Supervisor.init e)) ticks))).
Proof.
  intros Hstart.
  destruct (restart_orderly f Supervisor.init e eq_refl) as (H1 & _ & H3).
  unfold Supervisor.start in *.
  destruct (Supervisor.raised (Supervisor.start_or_restart_capture f Supervisor.init e))
    eqn:Er; [congruence|].
  change (Supervisor.process_runs Supervisor.init) with false in H3.
  change (Supervisor.thread_runs Supervisor.init) with false in H3.
  cbn [Supervisor.handles_after Supervisor.effects].
  destruct (watchdog_orderly f ticks _ H1) as (_ & H5 & H6).
  split; [exact H5|].
  rewrite !orderly_app, H3, orderly_prep_threads. exact H6.
Qed.

Lemma watchdog_is_orderly_witness :
  Supervisor.raised
    (Supervisor.watchdog
       {| Supervisor.ffmpeg_input := "rtsp://camera/stream";
          Supervisor.ffmpeg_global_args := []; Supervisor.ffmpeg_hwaccel_args := [];
          Supervisor.ffmpeg_input_args := []; Supervisor.ffmpeg_output_args := [] |}
       (Supervisor.handles_after
          (Supervisor.start
             {| Supervisor.ffmpeg_input := "rtsp://camera/stream";
                Supervisor.ffmpeg_global_args := []; Supervisor.ffmpeg_hwaccel_args := [];
                Supervisor.ffmpeg_input_args := []; Supervisor.ffmpeg_output_args := [] |}
             1 Supervisor.init
             {| Supervisor.timed_out := false; Supervisor.spawned := Some 41;
                Supervisor.thread := 1%nat |}))
       [ {| Supervisor.now := round_int 1000; Supervisor.seen := round_int 100;
            Supervisor.restart_env :=
              {| Supervisor.timed_out := true; Supervisor.spawned := Some 42;
                 Supervisor.thread := 2%nat |} |} ])
  <> Some Supervisor.AttributeError.
Proof.
  refine (proj1 (watchdog_is_orderly _ 1 _ _ _)). reflexivity.
Defined.

(** X13: a call of [start_or_restart_capture] whose [Popen] succeeds
    leaves the new process and the new thread in the camera, so that
    [get_capture_pid] answers the new pid; the old process is killed
    exactly when its graceful wait of 30 seconds timed out. *)
Theorem restart_replaces_process
  (f : Supervisor.ffmpeg) (h : Supervisor.handles) (e : Supervisor.env) (pid : Z) :
  Supervisor.in_step h = true ->
  Supervisor.spawned e = Some pid ->
  Supervisor.raised (Supervisor.start_or_restart_capture f h e) = None
  /\ Supervisor.handles_after (Supervisor.start_or_restart_capture f h e)
     = {| Supervisor.ffmpeg_process := Some pid;
          Supervisor.capture_thread := Some (Supervisor.thread e) |}
  /\ Supervisor.get_capture_pid
       (Supervisor.handles_after (Supervisor.start_or_restart_capture f h e)) = Some pid
  /\ (forall old,
        In (Supervisor.Kill old)
           (Supervisor.effects (Supervisor.start_or_restart_capture f h e))
        <-> Supervisor.timed_out e = true /\ Supervisor.ffmpeg_process h = Some old).
Proof.
  unfold Supervisor.in_step, Supervisor.start_or_restart_capture, Supervisor.stop_existing,
    Supervisor.start_new, Supervisor.get_capture_pid.
  intros Hh Hs. rewrite Hs.
  destruct h as [[old|] [th|]]; simpl in Hh; try discriminate;
    destruct (Supervisor.timed_out e); simpl;
    (split; [reflexivity|]); (split; [reflexivity|]); (split; [reflexivity|]);
    intros old'; (split; [intros H; decompose [or] H; clear H | intros [Ht Ho]]);
    try discriminate; try contradiction.
  - match goal with H : Supervisor.Kill _ = _ |- _ => injection H as <- end. auto.
  - injection Ho as <-. do 5 right. left. reflexivity.
Qed.

Lemma restart_replaces_process_witness :
  Supervisor.get_capture_pid
    (Supervisor.handles_after
       (Supervisor.start_or_restart_capture
          {| Supervisor.ffmpeg_input := "rtsp://camera/stream";
             Supervisor.ffmpeg_global_args := []; Supervisor.ffmpeg_hwaccel_args := [];
             Supervisor.ffmpeg_input_args := []; Supervisor.ffmpeg_output_args := [] |}
          {| Supervisor.ffmpeg_process := Some 41; Supervisor.capture_thread := Some 1%nat |}
          {| Supervisor.timed_out := true; Supervisor.spawned := Some 42;
             Supervisor.thread := 2%nat |}))
  = Some 42.
Proof.
  refine (proj1 (proj2 (proj2 (restart_replaces_process _
    {| Supervisor.ffmpeg_process := Some 41; Supervisor.capture_thread := Some 1%nat |}
    {| Supervisor.timed_out := true; Supervisor.spawned := Some 42;
       Supervisor.thread := 2%nat |} 42 _ _)))); reflexivity.
Defined.

(** X14: when [Popen] raises, the call ends with that exception after the
    old process was ended and its thread joined: the camera is left with
    neither process nor thread, no capture thread is started, and
    [get_capture_pid] and [join] then fail on the missing attribute. *)
Theorem failed_spawn_leaves_nothing
  (f : Supervisor.ffmpeg) (h : Supervisor.handles) (e : Supervisor.env) :
  Supervisor.in_step h = true ->
  Supervisor.spawned e = None ->
  Supervisor.raised (Supervisor.start_or_restart_capture f h e) = Some Supervisor.OSError
  /\ Supervisor.handles_after (Supervisor.start_or_restart_capture f h e) = Supervisor.init
  /\ Supervisor.get_capture_pid
       (Supervisor.handles_after (Supervisor.start_or_restart_capture f h e)) = None
  /\ Supervisor.join
       (Supervisor.handles_after (Supervisor.start_or_restart_capture f h e)) = None
  /\ (forall t,
        ~ In (Supervisor.StartThread t)
            (Supervisor.effects (Supervisor.start_or_restart_capture f h e)))
  /\ Supervisor.orderly (Supervisor.process_runs h) (Supervisor.thread_runs h)
       (Supervisor.effects (Supervisor.start_or_restart_capture f h e))
     = Some (false, false).
Proof.
  unfold Supervisor.in_step, Supervisor.start_or_restart_capture, Supervisor.stop_existing,
    Supervisor.start_new, Supervisor.get_capture_pid, Supervisor.join.
  intros Hh Hs. rewrite Hs.
  destruct h as [[old|] [th|]]; simpl in Hh; try discriminate;
    destruct (Supervisor.timed_out e); simpl;
    repeat (split; [reflexivity|]); (split; [|reflexivity]);
    intros t H; decompose [or] H; clear H; try discriminate; contradiction.
Qed.

Lemma failed_spawn_leaves_nothing_witness :
  Supervisor.raised
    (Supervisor.start_or_restart_capture
       {| Supervisor.ffmpeg_input := "rtsp://camera/stream";
          Supervisor.ffmpeg_global_args := []; Supervisor.ffmpeg_hwaccel_args := [];
          Supervisor.ffmpeg_input_args := []; Supervisor.ffmpeg_output_args := [] |}
       {| Supervisor.ffmpeg_process := Some 41; Supervisor.capture_thread := Some 1%nat |}
       {| Supervisor.timed_out := false; Supervisor.spawned := None;
          Supervisor.thread := 2%nat |})
  = Some Supervisor.OSError.
Proof.
  refine (proj1 (failed_spawn_leaves_nothing _
    {| Supervisor.ffmpeg_process := Some 41; Supervisor.capture_thread := Some 1%nat |}
    {| Supervisor.timed_out := false; Supervisor.spawned := None;
       Supervisor.thread := 2%nat |} _ _)); reflexivity.
Defined.

(** X15: a round of the watchdog that finds a frame time not earlier than
    its clock reading (a frame written since, or a clock set back) only
    sleeps: no restart, whatever the handles. *)
Theorem watchdog_spares_fresh_frame
  (f : Supervisor.ffmpeg) (h : Supervisor.handles) (t : Supervisor.tick) :
  valid_float (Supervisor.now t) = true ->
  valid_float (Supervisor.seen t) = true ->
  SFleb (Supervisor.now t) (Supervisor.seen t) = true ->
  Supervisor.watch f h t
  = {| Supervisor.handles_after := h; Supervisor.effects := [Supervisor.Sleep 10];
       Supervisor.raised := None |}.
Proof.
  intros Hnow Hseen Hle. unfold Supervisor.watch, Supervisor.stale.
  rewrite not_positive_not_above; [reflexivity| |lia].
  apply fsub_not_positive; assumption.
Qed.

Lemma watchdog_spares_fresh_frame_witness :
  Supervisor.watch
    {| Supervisor.ffmpeg_input := "rtsp://camera/stream";
       Supervisor.ffmpeg_global_args := []; Supervisor.ffmpeg_hwaccel_args := [];
       Supervisor.ffmpeg_input_args := []; Supervisor.ffmpeg_output_args := [] |}
    {| Supervisor.ffmpeg_process := Some 41; Supervisor.capture_thread := Some 1%nat |}
    {| Supervisor.now := round_int 1000; Supervisor.seen := round_int 1001;
       Supervisor.restart_env :=
         {| Supervisor.timed_out := false; Supervisor.spawned := Some 42;
            Supervisor.thread := 2%nat |} |}
  = {| Supervisor.handles_after :=
         {| Supervisor.ffmpeg_process := Some 41; Supervisor.capture_thread := Some 1%nat |};
       Supervisor.effects := [Supervisor.Sleep 10];
       Supervisor.raised := None |}.
Proof.
  apply watchdog_spares_fresh_frame; vm_compute; reflexivity.
Defined.

(** X16: as long as no frame has been captured (the frame time is still
    0.0) the watchdog compares the clock itself with 300 seconds: a round
    only sleeps exactly when the clock reading is not above 300, and
    restarts the capture otherwise. *)
Theorem watchdog_before_first_frame
  (f : Supervisor.ffmpeg) (h : Supervisor.handles) (t : Supervisor.tick) (s : bool) :
  Supervisor.seen t = S754_zero s ->
  (num_gt (Float (Supervisor.now t)) (Int 300) = false ->
     Supervisor.watch f h t
     = {| Supervisor.handles_after := h; Supervisor.effects := [Supervisor.Sleep 10];
          Supervisor.raised := None |})
  /\ (num_gt (Float (Supervisor.now t)) (Int 300) = true ->
      Supervisor.handles_after (Supervisor.watch f h t)
      = Supervisor.handles_after
          (Supervisor.start_or_restart_capture f h (Supervisor.restart_env t))
      /\ Supervisor.raised (Supervisor.watch f h t)
         = Supervisor.raised
             (Supervisor.start_or_restart_capture f h (Supervisor.restart_env t))
      /\ exists rest,
           Supervisor.effects (Supervisor.watch f h t)
           = [Supervisor.Sleep 10; Supervisor.Printed Supervisor.too_old_message]
             ++ Supervisor.effects
                  (Supervisor.start_or_restart_capture f h (Supervisor.restart_env t))
             ++ rest).
Proof.
  intros Hseen. unfold Supervisor.watch.
  rewrite Hseen, stale_before_first_frame.
  split; intros ->; [reflexivity|]. simpl. eauto.
Qed.

Lemma watchdog_before_first_frame_witness :
  Supervisor.handles_after
    (Supervisor.watch
       {| Supervisor.ffmpeg_input := "rtsp://camera/stream";
          Supervisor.ffmpeg_global_args := []; Supervisor.ffmpeg_hwaccel_args := [];
          Supervisor.ffmpeg_input_args := []; Supervisor.ffmpeg_output_args := [] |}
       {| Supervisor.ffmpeg_process := Some 41; Supervisor.capture_thread := Some 1%nat |}
       {| Supervisor.now := round_int 1700000000; Supervisor.seen := S754_zero false;
          Supervisor.restart_env :=
            {| Supervisor.timed_out := false; Supervisor.spawned := Some 42;
               Supervisor.thread := 2%nat |} |})
  = {| Supervisor.ffmpeg_process := Some 42; Supervisor.capture_thread := Some 2%nat |}.
Proof.
  refine (proj1 (proj2 (watchdog_before_first_frame _
    {| Supervisor.ffmpeg_process := Some 41; Supervisor.capture_thread := Some 1%nat |}
    {| Supervisor.now := round_int 1700000000; Supervisor.seen := S754_zero false;
       Supervisor.restart_env :=
         {| Supervisor.timed_out := false; Supervisor.spawned := Some 42;
            Supervisor.thread := 2%nat |} |} false _) _)).
  - reflexivity.
  - vm_compute. reflexivity.
Defined.

(* ===================================================================== *)
(** * More on the frame lock: exclusion, the raster, release *)
(* ===================================================================== *)

Section Lock.

Import SharedFrame.

Variable frame_shape : Z * Z * Z.

Implicit Types (s : system) (a : action) (th : thread) (i j : nat).

Lemma raster_length s :
  invariant frame_shape s ->
  length (current_frame (shared s)) = Z.to_nat (frame_size_of frame_shape).
Proof.
  intros (Hlen & Hfree & Hown & Hall).
  destruct (lock s) as [i|] eqn:Hl; [|rewrite (Hfree eq_refl); exact Hlen].
  destruct (Hown i eq_refl) as (th & Hth & Hc).
  pose proof (Hall _ _ Hth) as Hinv.
  destruct th as [[|raw0|raw0 t|frame t k| |e]|[|snap acc|snap frame|snap frame t|snap frame t]];
    try discriminate; simpl in Hinv.
  - destruct Hinv as (_ & ->). exact Hlen.
  - destruct Hinv as (_ & ->). exact Hlen.
  - destruct Hinv as (_ & Hf & ->). simpl.
    rewrite length_app, length_take, length_drop. lia.
  - destruct Hinv as (_ & Hs & Hw & _). rewrite Hs, <- Hw. exact Hlen.
  - destruct Hinv as (_ & Hs & Hw & _). rewrite Hs, <- Hw. exact Hlen.
  - destruct Hinv as (_ & Hs & Hw & _). rewrite Hs, <- Hw. exact Hlen.
Qed.

(** The owner of the lock can always take its next step, which releases
    the lock or leaves fewer steps to the release. *)
Lemma owner_steps s a th :
  invariant frame_shape s ->
  threads s !! tid a = Some th -> critical th = true ->
  exists s', exec frame_shape s a = Some s'
    /\ (lock s' = None
        \/ exists th', threads s' !! tid a = Some th' /\ critical th' = true
             /\ lock s' = Some (tid a)
             /\ (steps_to_release (Z.to_nat (frame_size_of frame_shape)) th'
                 < steps_to_release (Z.to_nat (frame_size_of frame_shape)) th)%nat).
Proof.
  intros Hinv Hth Hc.
  pose proof (raster_length s Hinv) as Hraster.
  destruct Hinv as (Hlen & Hfree & Hown & Hall).
  pose proof (Hall _ _ Hth) as Hme.
  pose proof (lookup_lt_Some _ _ _ Hth) as Hlt.
  unfold exec. rewrite Hth.
  destruct th as [[|raw0|raw0 t|frame t k| |e]|[|snap acc|snap frame|snap frame t|snap frame t]];
    try discriminate; simpl in Hme |- *.
  - destruct Hme as [Hl _]. eexists. split; [reflexivity|]. right.
    eexists. simpl. rewrite list_lookup_insert_eq by exact Hlt.
    split; [reflexivity|]. split; [reflexivity|]. split; [exact Hl|]. simpl. lia.
  - destruct Hme as [Hl _].
    destruct (reshape raw0 frame_shape) as [frame|e]; eexists; (split; [reflexivity|]).
    + right. eexists. unfold move. simpl. rewrite list_lookup_insert_eq by exact Hlt.
      split; [reflexivity|]. split; [reflexivity|]. split; [exact Hl|]. simpl. lia.
    + left. reflexivity.
  - destruct Hme as (Hl & Hf & _).
    destruct (frame !! k) as [b|] eqn:Ek; eexists; (split; [reflexivity|]).
    + apply lookup_lt_Some in Ek.
      right. eexists. simpl. rewrite list_lookup_insert_eq by exact Hlt.
      split; [reflexivity|]. split; [reflexivity|]. split; [exact Hl|]. simpl. lia.
    + left. reflexivity.
  - destruct Hme as (Hl & Hs & Hw & Hacc).
    destruct (current_frame (shared s) !! length acc) as [b|] eqn:Ek;
      eexists; (split; [reflexivity|]); right; eexists; unfold move; simpl;
      rewrite list_lookup_insert_eq by exact Hlt;
      (split; [reflexivity|]); (split; [reflexivity|]); (split; [exact Hl|]); simpl.
    + apply lookup_lt_Some in Ek. rewrite length_app. simpl. lia.
    + lia.
  - destruct Hme as (Hl & _). eexists. split; [reflexivity|]. right.
    eexists. unfold move. simpl. rewrite list_lookup_insert_eq by exact Hlt.
    split; [reflexivity|]. split; [reflexivity|]. split; [exact Hl|]. simpl. lia.
  - eexists. split; [reflexivity|]. left. reflexivity.
Qed.

(** Run alone, the owner releases the lock within its remaining steps. *)
Lemma owner_releases a : forall (n : nat) s th,
  invariant frame_shape s ->
  threads s !! tid a = Some th -> critical th = true ->
  (steps_to_release (Z.to_nat (frame_size_of frame_shape)) th <= n)%nat ->
  exists k s', (k <= n)%nat
    /\ run frame_shape s (replicate k a) = Some s' /\ lock s' = None.
Proof.
  induction n as [|n IH]; intros s th Hinv Hth Hc Hn.
  - destruct th as [[| | | | |]|[| | | |]]; try discriminate; simpl in Hn; lia.
  - destruct (owner_steps s a th Hinv Hth Hc) as (s1 & Hexec & Hnext).
    destruct Hnext as [Hfree|(th' & Hth' & Hc' & _ & Hless)].
    + exists 1%nat, s1. split; [lia|]. simpl. rewrite Hexec. auto.
    + destruct (IH s1 th' (exec_invariant frame_shape _ _ _ Hinv Hexec) Hth' Hc'
                  ltac:(lia)) as (k & s' & Hk & Hrun & Hl).
      exists (S k), s'. split; [lia|]. simpl. rewrite Hexec. auto.
Qed.

Lemma steps_to_release_bound th :
  (steps_to_release (Z.to_nat (frame_size_of frame_shape)) th
   <= Z.to_nat (frame_size_of frame_shape) + 3)%nat.
Proof. destruct th as [[| | | | |]|[| | | |]]; simpl; lia. Qed.

End Lock.

(** X17: in every state the threads can reach, at most one thread is
    inside its [with frame_lock] block, and a thread outside its block,
    also a capture thread killed by an exception inside it, does not own
    the lock. *)
Theorem frame_lock_excludes
  (frame_shape : Z * Z * Z) (pool : list SharedFrame.role)
  (schedule : list SharedFrame.action) (s : SharedFrame.system) :
  SharedFrame.run frame_shape (SharedFrame.init frame_shape pool) schedule = Some s ->
  (forall i j thi thj,
     SharedFrame.threads s !! i = Some thi -> SharedFrame.threads s !! j = Some thj ->
     SharedFrame.critical thi = true -> SharedFrame.critical thj = true -> i = j)
  /\ (forall i th,
        SharedFrame.threads s !! i = Some th -> SharedFrame.critical th = false ->
        SharedFrame.lock s <> Some i).
Proof.
  intros Hrun.
  destruct (run_invariant frame_shape schedule _ _ (init_invariant frame_shape pool) Hrun)
    as (_ & _ & Hown & Hall).
  split.
  - intros i j thi thj Hi Hj Hci Hcj.
    pose proof (thread_inv_lock frame_shape _ _ _ Hci (Hall _ _ Hi)) as Hli.
    pose proof (thread_inv_lock frame_shape _ _ _ Hcj (Hall _ _ Hj)) as Hlj.
    congruence.
  - intros i th Hi Hc Hl. destruct (Hown i Hl) as (th' & Hth' & Hc'). congruence.
Qed.

Lemma frame_lock_excludes_witness :
  (forall i j thi thj,
     [SharedFrame.Capture (SharedFrame.CapDead ValueError);
      SharedFrame.Reader SharedFrame.RdIdle] !! i = Some thi ->
     [SharedFrame.Capture (SharedFrame.CapDead ValueError);
      SharedFrame.Reader SharedFrame.RdIdle] !! j = Some thj ->
     SharedFrame.critical thi = true -> SharedFrame.critical thj = true -> i = j)
  /\ (forall i th,
        [SharedFrame.Capture (SharedFrame.CapDead ValueError);
         SharedFrame.Reader SharedFrame.RdIdle] !! i = Some th ->
        SharedFrame.critical th = false ->
        @None nat <> Some i).
Proof.
  refine (frame_lock_excludes (1, 1, 2)
    [SharedFrame.Capturing; SharedFrame.Reading]
    (replicate 3 {| SharedFrame.tid := 0%nat; SharedFrame.read := [Byte.x01];
                    SharedFrame.clock := round_int 100 |})
    {| SharedFrame.threads :=
         [SharedFrame.Capture (SharedFrame.CapDead ValueError);
          SharedFrame.Reader SharedFrame.RdIdle];
       SharedFrame.lock := None;
       SharedFrame.shared := SharedFrame.set_time (SharedFrame.zeros (1, 1, 2)) (round_int 100);
       SharedFrame.written :=
         SharedFrame.set_time (SharedFrame.zeros (1, 1, 2)) (round_int 100) |} _).
  vm_compute. reflexivity.
Defined.

(** X18: the raster in the frame buffer keeps the [frame_size] elements
    it was made with, in every state the threads can reach, also in the
    middle of a write and after a read of the wrong size. *)
Theorem raster_keeps_its_size
  (frame_shape : Z * Z * Z) (pool : list SharedFrame.role)
  (schedule : list SharedFrame.action) (s : SharedFrame.system) :
  SharedFrame.run frame_shape (SharedFrame.init frame_shape pool) schedule = Some s ->
  length (current_frame (SharedFrame.shared s)) = Z.to_nat (frame_size_of frame_shape).
Proof.
  intros Hrun. apply raster_length.
  exact (run_invariant frame_shape schedule _ _ (init_invariant frame_shape pool) Hrun).
Qed.

Lemma raster_keeps_its_size_witness :
  length (current_frame
            {| current_frame := [Byte.x01; Byte.x00]; frame_time := round_int 100 |})
  = Z.to_nat (frame_size_of (1, 1, 2)).
Proof.
  refine (raster_keeps_its_size (1, 1, 2)
    [SharedFrame.Capturing; SharedFrame.Reading]
    (replicate 4 {| SharedFrame.tid := 0%nat; SharedFrame.read := [Byte.x01; Byte.x02];
                    SharedFrame.clock := round_int 100 |})
    {| SharedFrame.threads :=
         [SharedFrame.Capture
            (SharedFrame.CapCopying [Byte.x01; Byte.x02] (round_int 100) 1);
          SharedFrame.Reader SharedFrame.RdIdle];
       SharedFrame.lock := Some 0%nat;
       SharedFrame.shared :=
         {| current_frame := [Byte.x01; Byte.x00]; frame_time := round_int 100 |};
       SharedFrame.written := SharedFrame.zeros (1, 1, 2) |} _).
  vm_compute. reflexivity.
Defined.

(** X19: the thread that owns the frame lock is never blocked, and run on
    its own it releases the lock after at most [frame_size + 3] steps, by
    leaving its block or by the exception of a failed reshape: the lock
    cannot stay taken. *)
Theorem frame_lock_is_released
  (frame_shape : Z * Z * Z) (pool : list SharedFrame.role)
  (schedule : list SharedFrame.action) (s : SharedFrame.system) (a : SharedFrame.action) :
  SharedFrame.run frame_shape (SharedFrame.init frame_shape pool) schedule = Some s ->
  SharedFrame.lock s = Some (SharedFrame.tid a) ->
  exists k s',
    (k <= Z.to_nat (frame_size_of frame_shape) + 3)%nat
    /\ SharedFrame.run frame_shape s (replicate k a) = Some s'
    /\ SharedFrame.lock s' = None.
Proof.
  intros Hrun Hl.
  pose proof (run_invariant frame_shape schedule _ _ (init_invariant frame_shape pool) Hrun)
    as Hinv.
  destruct Hinv as (Hlen & Hfree & Hown & Hall).
  destruct (Hown _ Hl) as (th & Hth & Hc).
  eapply (owner_releases frame_shape a _ s th); eauto.
  - repeat split; assumption.
  - apply steps_to_release_bound.
Qed.

Lemma frame_lock_is_released_witness :
  exists k s',
    (k <= Z.to_nat (frame_size_of (1%Z, 1%Z, 2%Z)) + 3)%nat
    /\ SharedFrame.run (1, 1, 2)
         {| SharedFrame.threads :=
              [SharedFrame.Capture (SharedFrame.CapLocked [Byte.x01; Byte.x02]);
               SharedFrame.Reader SharedFrame.RdIdle];
            SharedFrame.lock := Some 0%nat;
            SharedFrame.shared := SharedFrame.zeros (1, 1, 2);
            SharedFrame.written := SharedFrame.zeros (1, 1, 2) |}
         (replicate k {| SharedFrame.tid := 0%nat; SharedFrame.read := [Byte.x01; Byte.x02];
                         SharedFrame.clock := round_int 100 |})
       = Some s'
    /\ SharedFrame.lock s' = None.
Proof.
  refine (frame_lock_is_released (1, 1, 2)
    [SharedFrame.Capturing; SharedFrame.Reading]
    [{| SharedFrame.tid := 0%nat; SharedFrame.read := [Byte.x01; Byte.x02];
        SharedFrame.clock := round_int 100 |}]
    _ {| SharedFrame.tid := 0%nat; SharedFrame.read := [Byte.x01; Byte.x02];
         SharedFrame.clock := round_int 100 |} _ _).
  - vm_compute. reflexivity.
  - reflexivity.
Defined.

(* ===================================================================== *)
(** * The frame the tracker records, and the default mask *)
(* ===================================================================== *)

Section Recorded.

Import FrameTracker.

(** [d[k] = v] leaves one entry for [k], and it holds [v]. *)
Lemma setitem_entry (d : frames) (k : spec_float) (v : list byte) :
  distinct_keys d = true -> is_nan k = false ->
  exists k0, key_eq k0 k = true /\ In (k0, v) (setitem d k v)
    /\ forall k' v', In (k', v') (setitem d k v) -> key_eq k' k = true ->
                     k' = k0 /\ v' = v.
Proof.
  unfold distinct_keys. intros Hd Hk.
  induction d as [|[k1 v1] d IH]; simpl.
  - exists k. split; [apply key_eq_refl, Hk|]. split; [left; reflexivity|].
    intros k' v' [[= <- <-]|[]] _. auto.
  - simpl in Hd. apply andb_true_iff in Hd as [H1 Hd]. apply negb_true_iff in H1.
    destruct (key_eq k1 k) eqn:E.
    + exists k1. split; [exact E|]. split; [left; reflexivity|].
      intros k' v' [[= <- <-]|Hin] E'; [auto|exfalso].
      assert (Hc : key_eq k' k1 = true)
        by (eapply key_eq_trans; [exact E'|apply key_eq_sym, E]).
      rewrite (proj1 (existsb_false _ _) H1 k') in Hc; [discriminate|].
      apply in_keys. eauto.
    + destruct (IH Hd) as (k0 & E0 & Hin0 & Huniq).
      exists k0. split; [exact E0|]. split; [right; exact Hin0|].
      intros k' v' [[= <- <-]|Hin] E'; [congruence|]. eapply Huniq; eauto.
Qed.

Lemma leb_number (x y : spec_float) : SFleb x y = true -> is_nan y = false.
Proof. destruct y; try reflexivity. destruct x as [| | |[]]; discriminate. Qed.

(** A frame stamped at or after [now] is never too old. *)
Lemma not_before_now_not_too_old (now t : spec_float) :
  valid_float now = true -> valid_float t = true -> SFleb now t = true ->
  too_old now t = false.
Proof.
  intros Hn Ht Hle. unfold too_old.
  apply not_positive_not_above; [|lia]. apply fsub_not_positive; assumption.
Qed.

End Recorded.

(** X20: in every iteration of the frame tracker the copied frame is
    recorded under its time, replacing what was stored for that time, and
    the same prune applies to it.  When its age against the iteration's
    [now] does not exceed 2 seconds the dictionary ends with exactly one
    entry for that time, holding the copied frame; otherwise the frame is
    deleted in the iteration that recorded it.  A frame stamped at or
    after [now], as after a wait, is always kept. *)
Theorem copied_frame_is_recorded
  (earlier : list FrameTracker.io) (i : FrameTracker.io) :
  is_nan (frame_time (FrameTracker.copied i)) = false ->
  exists st st',
    FrameTracker.run (FrameTracker.start []) earlier = Ok st
    /\ FrameTracker.step st i = Ok st'
    /\ FrameTracker.last_frame_time st' = frame_time (FrameTracker.copied i)
    /\ (FrameTracker.too_old (FrameTracker.now i) (frame_time (FrameTracker.copied i)) = false ->
        exists k,
          FrameTracker.key_eq k (frame_time (FrameTracker.copied i)) = true
          /\ In (k, current_frame (FrameTracker.copied i)) (FrameTracker.recent_frames st')
          /\ forall k' v', In (k', v') (FrameTracker.recent_frames st') ->
               FrameTracker.key_eq k' (frame_time (FrameTracker.copied i)) = true ->
               k' = k /\ v' = current_frame (FrameTracker.copied i))
    /\ (FrameTracker.too_old (FrameTracker.now i) (frame_time (FrameTracker.copied i)) = true ->
        forall k v, In (k, v) (FrameTracker.recent_frames st') ->
          FrameTracker.key_eq k (frame_time (FrameTracker.copied i)) = false)
    /\ (valid_float (FrameTracker.now i) = true ->
        valid_float (frame_time (FrameTracker.copied i)) = true ->
        SFleb (FrameTracker.now i) (frame_time (FrameTracker.copied i)) = true ->
        FrameTracker.too_old (FrameTracker.now i) (frame_time (FrameTracker.copied i)) = false).
Proof.
  intros Hnan.
  destruct (run_distinct earlier (FrameTracker.start []) eq_refl) as (st & Hrun & Hd).
  exists st. eexists. split; [exact Hrun|]. split; [apply step_prunes, Hd|].
  simpl. split; [reflexivity|].
  destruct (setitem_entry (FrameTracker.recent_frames st)
              (frame_time (FrameTracker.copied i)) (current_frame (FrameTracker.copied i))
              Hd Hnan) as (k0 & E0 & Hin0 & Huniq).
  split; [|split].
  - intros Hfresh. exists k0. split; [exact E0|]. split.
    + apply filter_In. split; [exact Hin0|]. simpl.
      rewrite (too_old_key_eq _ _ _ E0), Hfresh. reflexivity.
    + intros k' v' Hin E'. apply filter_In in Hin as [Hin _]. eapply Huniq; eauto.
  - intros Hold k v Hin. apply filter_In in Hin as [_ Hkept]. simpl in Hkept.
    apply negb_true_iff in Hkept.
    destruct (FrameTracker.key_eq k _) eqn:E; [|reflexivity].
    rewrite (too_old_key_eq _ _ _ E) in Hkept. congruence.
  - apply not_before_now_not_too_old.
Qed.

Lemma copied_frame_is_recorded_witness :
  exists st st',
    FrameTracker.run (FrameTracker.start []) [] = Ok st
    /\ FrameTracker.step st
         {| FrameTracker.now := round_int 10;
            FrameTracker.seen_first := round_int 9;
            FrameTracker.seen_second := round_int 9;
            FrameTracker.copied :=
              {| current_frame := [Byte.x01]; frame_time := round_int 100 |} |}
       = Ok st'
    /\ FrameTracker.last_frame_time st' = round_int 100.
Proof.
  destruct (copied_frame_is_recorded []
    {| FrameTracker.now := round_int 10;
       FrameTracker.seen_first := round_int 9;
       FrameTracker.seen_second := round_int 9;
       FrameTracker.copied :=
         {| current_frame := [Byte.x01]; frame_time := round_int 100 |} |}
    eq_refl) as (st & st' & H1 & H2 & H3 & _).
  exists st, st'. split; [exact H1|]. split; [exact H2|exact H3].
Defined.

(** X21: with no mask configured, or none that could be read, the mask is
    255 everywhere and rejects nothing: an object is skipped exactly when
    its label has settings in its region and one of the three rules
    rejects it. *)
Theorem default_mask_rejects_nothing
  (frame_shape : Z * Z * Z) (r : region) (d : detected_object) :
  filter_object (CameraInit.camera_mask None frame_shape) r d = Ok Skip
  <-> exists st, objects r !! name (raw d) = Some st /\ rules_reject r st d = true.
Proof.
  split.
  - destruct (objects r !! name (raw d)) as [st|] eqn:Est.
    + rewrite (filter_object_rules _ _ _ _ Est).
      destruct (rules_reject r st d) eqn:Er; [eauto|].
      destruct (mask_value _ d) as [v|e] eqn:Ev; [simpl|discriminate].
      apply mask_value_elem in Ev as (row & Hrow & Hv).
      destruct frame_shape as [[h w] c]. simpl in Hrow. unfold uniform_mask in Hrow.
      apply elem_of_replicate in Hrow as [-> _].
      apply elem_of_replicate in Hv as [-> _]. discriminate.
    + rewrite (filter_object_no_rules _ _ _ Est). discriminate.
  - intros (st & Est & Er). rewrite (filter_object_rules _ _ _ _ Est), Er. reflexivity.
Qed.

(** X22: in every state the threads can reach, a step changes the frame
    buffer only if it is a step of a capture thread that owns the frame
    lock: a reading thread ([FrameTracker.run],
    [get_current_frame_with_objects]) never writes the raster or the time,
    and no thread writes them outside its [with frame_lock] block. *)
Theorem buffer_written_under_lock
  (frame_shape : Z * Z * Z) (pool : list SharedFrame.role)
  (schedule : list SharedFrame.action) (s s' : SharedFrame.system)
  (a : SharedFrame.action) :
  SharedFrame.run frame_shape (SharedFrame.init frame_shape pool) schedule = Some s ->
  SharedFrame.exec frame_shape s a = Some s' ->
  (forall pc,
     SharedFrame.threads s !! SharedFrame.tid a = Some (SharedFrame.Reader pc) ->
     SharedFrame.shared s' = SharedFrame.shared s)
  /\ (SharedFrame.lock s <> Some (SharedFrame.tid a) ->
      SharedFrame.shared s' = SharedFrame.shared s).
Proof.
  intros Hrun Hexec.
  destruct (run_invariant frame_shape schedule _ _ (init_invariant frame_shape pool) Hrun)
    as (_ & _ & _ & Hall).
  unfold SharedFrame.exec in Hexec.
  destruct (SharedFrame.threads s !! SharedFrame.tid a) as [th|] eqn:Hth; [|discriminate].
  pose proof (Hall _ _ Hth) as Hme.
  split.
  - intros pc [= ->]. simpl in Hexec.
    destruct pc as [|snap acc|snap frame|snap frame t|snap frame t]; simpl in Hexec.
    + destruct (SharedFrame.lock s); [discriminate|]. injection Hexec as <-. reflexivity.
    + destruct (_ !! _); injection Hexec as <-; reflexivity.
    + injection Hexec as <-. reflexivity.
    + injection Hexec as <-. reflexivity.
    + injection Hexec as <-. reflexivity.
  - intros Hfree.
    destruct th as [[|raw0|raw0 t|frame t k| |e]|[|snap acc|snap frame|snap frame t|snap frame t]];
      simpl in Hexec, Hme;
      try (exfalso; exact (Hfree (proj1 Hme)));
      try discriminate;
      try (destruct (SharedFrame.lock s); [discriminate|]);
      try (destruct (_ !! _));
      injection Hexec as <-; reflexivity.
Qed.

Lemma buffer_written_under_lock_witness :
  SharedFrame.shared
    {| SharedFrame.threads :=
         [SharedFrame.Capture SharedFrame.CapIdle;
          SharedFrame.Reader (SharedFrame.RdCopying (SharedFrame.zeros (1, 1, 2)) [])];
       SharedFrame.lock := Some 1%nat;
       SharedFrame.shared := SharedFrame.zeros (1, 1, 2);
       SharedFrame.written := SharedFrame.zeros (1, 1, 2) |}
  = SharedFrame.shared (SharedFrame.init (1, 1, 2) [SharedFrame.Capturing; SharedFrame.Reading]).
Proof.
  refine (proj1 (buffer_written_under_lock (1, 1, 2)
    [SharedFrame.Capturing; SharedFrame.Reading] []
    _ _ {| SharedFrame.tid := 1%nat; SharedFrame.read := [];
           SharedFrame.clock := round_int 101 |} _ _) SharedFrame.RdIdle _).
  - reflexivity.
  - vm_compute. reflexivity.
  - reflexivity.
Defined.

(* ===================================================================== *)
(** * The pair a read returns *)
(* ===================================================================== *)

Section History.

Import SharedFrame.

Variable frame_shape : Z * Z * Z.
Variable pool : list role.

Implicit Types (s : system) (a b : action) (th : thread) (i j : nat).
Implicit Types (schedule pre more : list action).











End History.

(* ===================================================================== *)
(** * A write, then a read *)
(* ===================================================================== *)

Section Sequence.

Import SharedFrame.

Variable frame_shape : Z * Z * Z.

Implicit Types (s : system) (a b : action) (th : thread) (i j : nat).








End Sequence.



